(** * Budgeted link ranking, content cache and resilient calls

    A shallow embedding of the Python sources of the GitLab handbook
    chatbot: [src/crawling.py] (lexical prefilter), [src/embedding.py]
    (budgeted embedding ranker), [src/cache_manager.py] (page and
    embedding caches), [src/document_processor.py] (cache-first page
    loading) and [src/rag_chain.py] (retrying chain invocation).

    Effects are explicit: every function that touches the disk, the
    embedding provider, the web or the language model is a computation
    in the monad [M], which threads a [world] (the files on disk and the
    trace of external events) and may raise a Python exception.

    A Python [str] is a [string] that holds its UTF-8 encoding:
    concatenation, prefix tests, equality and the order of [<] are then
    those of the bytes.  What depends on the Unicode tables
    ([str.lower], [str.split]) is left to the environment. *)

From Stdlib Require Import ZArith Lia String Ascii List.
From Stdlib Require Import Sorting.Sorted Sorting.Permutation.
From stdpp Require Import base gmap sets list strings pretty.

Local Open Scope string_scope.
Local Open Scope list_scope.
Local Open Scope Z_scope.

(** ** Python built-ins used by the sources *)

Module Py.

(** [l[:k]]: a negative stop counts from the end of the list. *)
Definition slice_to {A : Type} (k : Z) (l : list A) : list A :=
  if k <? 0 then take (Z.to_nat (Z.of_nat (length l) + k)) l
  else take (Z.to_nat k) l.

(** [list.sort(reverse=True)] and [sorted(..., reverse=True)].  The sort
    is stable and [reverse=True] keeps the original order of elements
    that compare equal.  [lt x y] is Python's [x < y] on the sort keys.
    Insertion from the right realises exactly that order; the result of
    a stable sort does not depend on the algorithm. *)
Section Sort.
Context {A : Type} (lt : A → A → bool).

Fixpoint insert_desc (x : A) (l : list A) : list A :=
  match l with
  | [] => [x]
  | y :: ys => if lt x y then y :: insert_desc x ys else x :: y :: ys
  end.

Definition sort_desc (l : list A) : list A := foldr insert_desc [] l.
End Sort.

Definition LF : ascii := "010"%char.
Definition CR : ascii := "013"%char.

(** [sep.join(parts)] *)
Fixpoint join (sep : string) (parts : list string) : string :=
  match parts with
  | [] => ""
  | [p] => p
  | p :: ps => p +:+ sep +:+ join sep ps
  end.

(** Text files.  [open(path, "w")] writes every ["\n"] as [os.linesep];
    [open(path, "r")] reads in universal-newlines mode, where ["\r\n"]
    and a lone ["\r"] both come back as ["\n"]. *)
Fixpoint newline_out (linesep : string) (s : string) : string :=
  match s with
  | EmptyString => EmptyString
  | String c s' =>
      if Ascii.eqb c LF then linesep +:+ newline_out linesep s'
      else String c (newline_out linesep s')
  end.

Fixpoint universal_newlines (s : string) : string :=
  match s with
  | EmptyString => EmptyString
  | String c s' =>
      if Ascii.eqb c CR then
        match s' with
        | String c' s'' =>
            if Ascii.eqb c' LF then String LF (universal_newlines s'')
            else String LF (universal_newlines s')
        | EmptyString => String LF EmptyString
        end
      else String c (universal_newlines s')
  end.

(** [c in s] *)
Fixpoint contains (c : ascii) (s : string) : bool :=
  match s with
  | EmptyString => false
  | String c' s' => Ascii.eqb c' c || contains c s'
  end.

End Py.

(** ** Exceptions, the world and the effect monad *)

(** The exception classes the sources name in [except] clauses, and one
    constructor for every other subclass of [Exception].  [msg] is what
    [str(e)] returns. *)
Inductive exn : Type :=
| ResourceExhausted (msg : string)
| InternalServerError (msg : string)
| Unauthorized (msg : string)
| Forbidden (msg : string)
| OtherException (msg : string).

Definition exn_str (e : exn) : string :=
  match e with
  | ResourceExhausted m | InternalServerError m | Unauthorized m
  | Forbidden m | OtherException m => m
  end.

Inductive result (A : Type) : Type :=
| Return (a : A)
| Raise (e : exn).
Arguments Return {A} a.
Arguments Raise {A} e.

(** What a path on disk holds: bytes that the text codec decodes to
    [chars], or bytes it rejects. *)
Inductive file : Type :=
| Text (chars : string)
| Undecodable.

(** Calls that leave the process, in the order they were issued (most
    recent first). *)
Inductive event : Type :=
| EmbedCall (text : string)
| WebLoad (url : string)
| FileWrite (path : string)
| ChainInvoke (query : string)
| Sleep (seconds : Z) (jitter : bool).

Record world : Type := World {
  disk : gmap string file;
  trace : list event
}.

Definition is_EmbedCall (e : event) : bool :=
  match e with EmbedCall _ => true | _ => false end.
Definition is_WebLoad (e : event) : bool :=
  match e with WebLoad _ => true | _ => false end.
Definition is_FileWrite (e : event) : bool :=
  match e with FileWrite _ => true | _ => false end.
Definition is_ChainInvoke (e : event) : bool :=
  match e with ChainInvoke _ => true | _ => false end.
Definition is_Sleep (e : event) : bool :=
  match e with Sleep _ _ => true | _ => false end.

Definition count_events (p : event → bool) (w : world) : nat :=
  length (List.filter p (trace w)).

Definition embed_calls : world → nat := count_events is_EmbedCall.
Definition web_loads : world → nat := count_events is_WebLoad.
Definition file_writes : world → nat := count_events is_FileWrite.
Definition chain_calls : world → nat := count_events is_ChainInvoke.
Definition sleeps : world → nat := count_events is_Sleep.

Definition emit (e : event) (w : world) : world :=
  {| disk := disk w; trace := e :: trace w |}.

(** A computation reads and changes the world and either returns or
    raises. *)
Definition M (A : Type) : Type := world → result A * world.

Definition ret {A : Type} (a : A) : M A := λ w, (Return a, w).

Definition raise {A : Type} (e : exn) : M A := λ w, (Raise e, w).

Definition bind {A B : Type} (m : M A) (k : A → M B) : M B :=
  λ w, match m w with
       | (Return a, w') => k a w'
       | (Raise e, w') => (Raise e, w')
       end.

(** [try: body / except Exception as e: handler e] *)
Definition try_except {A : Type} (body : M A) (handler : exn → M A) : M A :=
  λ w, match body w with
       | (Return a, w') => (Return a, w')
       | (Raise e, w') => handler e w'
       end.

Declare Scope py_scope.
Delimit Scope py_scope with py.
Notation "x <- m ;; k" := (bind m (λ x, k))
  (at level 100, m at next level, right associativity) : py_scope.
Notation "m ;;; k" := (bind m (λ _, k))
  (at level 100, right associativity) : py_scope.

(** [for x in xs: body x], the body run for its effect on an accumulator. *)
Fixpoint for_each {A S : Type} (xs : list A) (body : S → A → M S) (acc : S) : M S :=
  match xs with
  | [] => ret acc
  | x :: xs' => bind (body acc x) (for_each xs' body)
  end.

(** ** The file system as the sources use it

    The disk is flat: a key is the path of a regular file, and the
    directories are implicit. *)

(** The calls that change the disk.  The operating system can refuse
    each of them for a reason the disk of the model does not show: a
    read-only or full disk, a missing permission, text that the codec
    cannot encode. *)
Inductive fs_call : Type :=
| Remove (path : string)
| Makedirs (directory : string)
| OpenWrite (path : string)
| WriteData (path : string).

(** The proper ancestors of a relative path: ["cache"] for
    ["cache/pages"].  [seen] is the part of the path read so far. *)
Fixpoint ancestors_from (seen rest : string) : list string :=
  match rest with
  | EmptyString => []
  | String c rest' =>
      if Ascii.eqb c "/" then seen :: ancestors_from (seen +:+ "/") rest'
      else ancestors_from (seen +:+ String c "") rest'
  end.

Definition ancestors (path : string) : list string := ancestors_from "" path.

(** A regular file stands at [path]. *)
Definition isfile (d : gmap string file) (path : string) : bool :=
  bool_decide (is_Some (d !! path)).

(** [os.path.exists(path)] *)
Definition os_path_exists (path : string) : M bool :=
  λ w, (Return (isfile (disk w) path), w).

(** [with open(path, "r") as f: f.read()] *)
Definition read_text (path : string) : M string :=
  λ w, match disk w !! path with
       | Some (Text chars) => (Return (Py.universal_newlines chars), w)
       | Some Undecodable => (Raise (OtherException "UnicodeDecodeError"), w)
       | None => (Raise (OtherException "FileNotFoundError"), w)
       end.

(** [config.py] *)
Definition CACHE_DIR : string := "cache".
Definition PAGE_CACHE_DIR : string := "cache/pages".
Definition EMBEDDING_CACHE_DIR : string := "cache/embeddings".

(** [os.path.join(directory, name)] *)
Definition os_path_join (directory name : string) : string :=
  directory +:+ "/" +:+ name.

(** [langchain_core.documents.Document], with [metadata["source"]]. *)
Record Document : Type := {
  page_content : string;
  source : string
}.

(** The dictionary a chain invocation answers with. *)
Record response : Type := {
  answer : string;
  context_docs : list Document
}.

(** [{"url": ..., "context": ...}], one candidate link. *)
Record link : Type := {
  url : string;
  context : string
}.

Local Open Scope py_scope.

Section Model.

(** *** What the environment provides *)

(** [hashlib.md5(s.encode()).hexdigest()] *)
Variable md5_hexdigest : string → string.
(** [os.linesep] *)
Variable linesep : string.
(** The error, if any, with which the operating system answers a call
    on the file system, given the events so far. *)
Variable os_fault : list event → fs_call → option exn.
(** An embedding vector as Python holds it (a list of floats), with
    [json.dumps] and [json.loads] on it; [None] stands for
    [JSONDecodeError], and for the JSON value [null], which Python reads
    as [None] and the callers of the cache take for a miss. *)
Variable embedding : Type.
Variable json_dumps : embedding → string.
Variable json_loads : string → option embedding.
(** [str.lower()] and [str.split()] with no argument, which follow the
    Unicode tables of the interpreter. *)
Variable str_lower : string → string.
Variable str_split : string → list string.
(** A similarity value ([numpy.float64]) with Python's [<] on it, and
    [sklearn]'s [cosine_similarity([a], [b])[0][0]], which raises on
    vectors it cannot compare (different lengths, a NaN or an infinity
    inside) and so never answers with a NaN. *)
Variable score : Type.
Variable score_ltb : score → score → bool.
Variable cosine_similarity : embedding → embedding → result score.
(** The embedding provider: its answer to the [n]-th call of the
    process (counting from 0) on a text. *)
Variable embed_service : nat → string → result embedding.
(** [config.TOTAL_EMBEDDING_BUDGET] *)
Variable TOTAL_EMBEDDING_BUDGET : Z.
(** [WebBaseLoader(url).load()], the answer to the [n]-th page fetch,
    and the text splitter's [split_documents]. *)
Variable web_loader : nat → string → result (list Document).
Variable split_documents : list Document → list Document.
(** [self.chain.invoke({"input": query})], the answer to the [n]-th
    invocation. *)
Variable chain_invoke : nat → string → result response.

(** *** [src/utils.py] *)

Definition hash_url (u : string) : string := md5_hexdigest u.

(** [os.remove(path)] *)
Definition os_remove (path : string) : M unit :=
  λ w, match os_fault (trace w) (Remove path) with
       | Some e => (Raise e, w)
       | None =>
           (Return (), {| disk := delete path (disk w); trace := trace w |})
       end.

(** [os.makedirs(directory, exist_ok=True)]: it raises when a regular
    file stands at the path or at one of its ancestors, and when the
    operating system refuses; otherwise it changes no key of the flat
    disk. *)
Definition os_makedirs (directory : string) : M unit :=
  λ w, if isfile (disk w) directory then
         (Raise (OtherException "FileExistsError"), w)
       else if existsb (isfile (disk w)) (ancestors directory) then
         (Raise (OtherException "NotADirectoryError"), w)
       else match os_fault (trace w) (Makedirs directory) with
            | Some e => (Raise e, w)
            | None => (Return (), w)
            end.

(** [with open(path, "w") as f: f.write(text)], in a directory that
    exists: opening creates the file or empties it; a write that fails
    leaves it empty. *)
Definition write_text (path text : string) : M unit :=
  λ w, match os_fault (trace w) (OpenWrite path) with
       | Some e => (Raise e, w)
       | None =>
           match os_fault (trace w) (WriteData path) with
           | Some e =>
               (Raise e,
                {| disk := <[path := Text ""]> (disk w); trace := trace w |})
           | None =>
               (Return (),
                {| disk := <[path := Text (Py.newline_out linesep text)]>
                             (disk w);
                   trace := FileWrite path :: trace w |})
           end
       end.

(** A regular file that stands where the directory should be is
    removed first ([os.path.exists] and not [os.path.isdir]). *)
Definition ensure_directory_exists (directory : string) : M unit :=
  present <- os_path_exists directory ;;
  (if present then os_remove directory else ret ()) ;;;
  os_makedirs directory.

(** *** [src/cache_manager.py] *)

Definition page_path (u : string) : string :=
  os_path_join PAGE_CACHE_DIR (hash_url u +:+ ".txt").

Definition embedding_path (u : string) : string :=
  os_path_join EMBEDDING_CACHE_DIR (hash_url u +:+ ".emb").

Definition PageCache_save (u text : string) : M unit :=
  try_except
    (ensure_directory_exists PAGE_CACHE_DIR ;;;
     write_text (page_path u) text)
    (λ e, ret ()).

Definition PageCache_load (u : string) : M (option string) :=
  try_except
    (present <- os_path_exists (page_path u) ;;
     if present then text <- read_text (page_path u) ;; ret (Some text)
     else ret None)
    (λ e, ret None).

(** [json.load(f)] *)
Definition json_load (path : string) : M embedding :=
  text <- read_text path ;;
  match json_loads text with
  | Some v => ret v
  | None => raise (OtherException "JSONDecodeError")
  end.

Definition EmbeddingCache_save (u : string) (emb : embedding) : M unit :=
  try_except
    (ensure_directory_exists EMBEDDING_CACHE_DIR ;;;
     write_text (embedding_path u) (json_dumps emb))
    (λ e, ret ()).

Definition EmbeddingCache_load (u : string) : M (option embedding) :=
  try_except
    (present <- os_path_exists (embedding_path u) ;;
     if present then v <- json_load (embedding_path u) ;; ret (Some v)
     else ret None)
    (λ e, ret None).

(** What the two [load] methods find on a given disk. *)
Definition cached_page (d : gmap string file) (u : string) : option string :=
  match d !! page_path u with
  | Some (Text chars) => Some (Py.universal_newlines chars)
  | _ => None
  end.

Definition cached_embedding (d : gmap string file) (u : string)
  : option embedding :=
  match d !! embedding_path u with
  | Some (Text chars) => json_loads (Py.universal_newlines chars)
  | _ => None
  end.

(** The file system lets a file be saved under [path] in [directory],
    in the world [w]: no regular file stands at an ancestor of the
    directory, and the operating system refuses none of the calls. *)
Definition can_save (directory path : string) (w : world) : Prop :=
  Forall (λ p, disk w !! p = None) (ancestors directory)
  ∧ os_fault (trace w) (Remove directory) = None
  ∧ os_fault (trace w) (Makedirs directory) = None
  ∧ os_fault (trace w) (OpenWrite path) = None
  ∧ os_fault (trace w) (WriteData path) = None.

(** The directory cannot be made, or the file cannot be opened. *)
Definition cannot_save (directory path : string) (w : world) : Prop :=
  Exists (λ p, is_Some (disk w !! p)) (ancestors directory)
  ∨ is_Some (os_fault (trace w) (Makedirs directory))
  ∨ is_Some (os_fault (trace w) (OpenWrite path)).

(** The world a save that went through leaves. *)
Definition saved (directory path text : string) (w : world) : world :=
  {| disk := <[path := Text (Py.newline_out linesep text)]>
               (delete directory (disk w));
     trace := FileWrite path :: trace w |}.

(** A history of saves, to speak of identities that were never saved. *)
Inductive cache_op : Type :=
| SavePage (u text : string)
| SaveEmbedding (u : string) (emb : embedding).

Definition op_identity (op : cache_op) : string :=
  match op with SavePage u _ | SaveEmbedding u _ => u end.

Definition run_op (op : cache_op) : M unit :=
  match op with
  | SavePage u text => PageCache_save u text
  | SaveEmbedding u emb => EmbeddingCache_save u emb
  end.

Fixpoint run_ops (ops : list cache_op) (w : world) : world :=
  match ops with
  | [] => w
  | op :: ops => run_ops ops (snd (run_op op w))
  end.

(** *** [src/crawling.py] *)

Definition naive_relevance_score (context query : string) : nat :=
  let query_keywords : gset string := list_to_set (str_split (str_lower query)) in
  let context_words : gset string := list_to_set (str_split (str_lower context)) in
  size (query_keywords ∩ context_words).

(** *** [src/embedding.py] *)

Definition embeddings_embed_query (text : string) : M embedding :=
  λ w, (embed_service (embed_calls w) text, emit (EmbedCall text) w).

Definition embed_query (query : string) : M embedding :=
  try_except (embeddings_embed_query query) (λ e, raise e).

Definition embed_document (text : string) : M embedding :=
  try_except (embeddings_embed_query text) (λ e, raise e).

(** [scored], after [scored.sort(reverse=True, key=lambda x: x[0])]. *)
Definition scored_by_keywords (query : string) (link_data : list link)
  : list (nat * link) :=
  Py.sort_desc (λ x y, (fst x <? fst y)%nat)
    (map (λ l, (naive_relevance_score (context l) query, l)) link_data).

(** [selected_links], as first assigned. *)
Definition select_by_budget (query : string) (link_data : list link)
  : list link :=
  let max_docs := TOTAL_EMBEDDING_BUDGET - 1 in
  map snd (Py.slice_to max_docs (scored_by_keywords query link_data)).

(** The backfill loop: [links] is what is left of [link_data]. *)
Fixpoint backfill_loop (selected_urls : gset string) (min_links : Z)
  (links : list link) (selected_links : list link) : list link :=
  match links with
  | [] => selected_links
  | l :: rest =>
      if decide (url l ∉ selected_urls) then
        let selected_links := selected_links ++ [l] in
        if min_links <=? Z.of_nat (length selected_links) then selected_links
        else backfill_loop selected_urls min_links rest selected_links
      else backfill_loop selected_urls min_links rest selected_links
  end.

Definition backfill (min_links : Z) (link_data selected_links : list link)
  : list link :=
  if Z.of_nat (length selected_links) <? min_links then
    let selected_urls : gset string := list_to_set (map url selected_links) in
    backfill_loop selected_urls min_links link_data selected_links
  else selected_links.

(** [selected_links], as the embedding stage receives it. *)
Definition select_links (query : string) (link_data : list link)
  (min_links : Z) : list link :=
  backfill min_links link_data (select_by_budget query link_data).

(** The lexical score of a candidate, and the candidates in the order
    the keyword sort leaves them in. *)
Definition lexical_score (query : string) (l : link) : nat :=
  naive_relevance_score (context l) query.

Definition lexical_order (query : string) (link_data : list link) : list link :=
  Py.sort_desc (λ a b, (lexical_score query a <? lexical_score query b)%nat)
    link_data.

Definition of_result {A : Type} (r : result A) : M A := λ w, (r, w).

(** The body of [for link in selected_links]. *)
Definition score_link (query_embedding : embedding)
  (scored_links : list (score * string)) (l : link)
  : M (list (score * string)) :=
  cached_vec <- EmbeddingCache_load (url l) ;;
  emb <- match cached_vec with
         | None =>
             emb <- embed_document (context l) ;;
             EmbeddingCache_save (url l) emb ;;;
             ret emb
         | Some v => ret v
         end ;;
  s <- of_result (cosine_similarity query_embedding emb) ;;
  ret (scored_links ++ [(s, url l)]).

(** Where the vector a candidate is scored with comes from, in the
    world [w] its turn starts in: the embedding cache, or else the
    provider's answer on the candidate's context. *)
Definition vector_for (l : link) (emb : embedding) (w : world) : Prop :=
  cached_embedding (disk w) (url l) = Some emb
  ∨ (cached_embedding (disk w) (url l) = None
     ∧ embed_service (embed_calls w) (context l) = Return emb).

(** The world after a cache miss that the provider answered with
    [emb]: the call, then the save, whether it goes through or not. *)
Definition after_miss (l : link) (emb : embedding) (w : world) : world :=
  snd (EmbeddingCache_save (url l) emb (emit (EmbedCall (context l)) w)).

(** The world the turn of a candidate leaves, when it starts in [w]. *)
Definition after_turn (l : link) (w : world) : world :=
  match cached_embedding (disk w) (url l) with
  | Some _ => w
  | None =>
      match embed_service (embed_calls w) (context l) with
      | Return emb => after_miss l emb w
      | Raise _ => emit (EmbedCall (context l)) w
      end
  end.

(** [scored] is what a run of the loop over [selected] that starts in
    [w] computes: one entry for each candidate, in order, with the
    candidate's URL and the similarity between the query embedding and
    the vector the candidate has in the world its turn starts in. *)
Fixpoint scored_in_run (query_embedding : embedding) (selected : list link)
  (w : world) (scored : list (score * string)) : Prop :=
  match selected, scored with
  | [], [] => True
  | l :: selected, p :: scored =>
      snd p = url l
      ∧ (∃ emb, vector_for l emb w
                ∧ cosine_similarity query_embedding emb = Return (fst p))
      ∧ scored_in_run query_embedding selected (after_turn l w) scored
  | _, _ => False
  end.

(** Python's [==] and [<] on [(score, url)] tuples: the first
    components that differ decide. *)
Definition score_eqb (a b : score) : bool :=
  negb (score_ltb a b) && negb (score_ltb b a).

Definition tuple_lt (p q : score * string) : bool :=
  if score_eqb (fst p) (fst q) then String.ltb (snd p) (snd q)
  else score_ltb (fst p) (fst q).

(** What [tuple_lt p q = false] says of two entries, [p] ranked before
    [q]: the similarity does not increase, and at equal similarity the
    URL does not increase either. *)
Definition ranked_before (p q : score * string) : Prop :=
  score_ltb (fst p) (fst q) = false
  ∧ (score_eqb (fst p) (fst q) = true → String.ltb (snd p) (snd q) = false).

(** The final order as the specification words it: sorted by
    descending similarity alone, stably, so that candidates of equal
    similarity stay in the order they were scored in (the lexical
    order); then the first [top_k] URLs. *)
Definition spec_ranking (scored_links : list (score * string)) (top_k : Z)
  : list string :=
  map snd (take (Z.to_nat top_k)
             (Py.sort_desc (λ p q, score_ltb (fst p) (fst q)) scored_links)).

(** The [try] block of [rank_links_by_query_relevance]. *)
Definition rank_body (query : string) (link_data : list link)
  (top_k min_links : Z) : M (list string) :=
  let selected_links := select_links query link_data min_links in
  query_embedding <- embed_query query ;;
  scored_links <- for_each selected_links (score_link query_embedding) [] ;;
  let top_links := Py.slice_to top_k (Py.sort_desc tuple_lt scored_links) in
  ret (map snd top_links).

Definition rank_links_by_query_relevance (query : string)
  (link_data : list link) (top_k min_links : Z) : M (list string) :=
  try_except (rank_body query link_data top_k min_links)
    (λ e, match e with
          | Unauthorized _ => ret []
          | Forbidden _ => ret []
          | _ => ret []
          end).

(** *** [src/document_processor.py] *)

Definition web_base_loader_load (u : string) : M (list Document) :=
  λ w, (web_loader (web_loads w) u, emit (WebLoad u) w).

(** The [try] block of [load_single_url] and its handler. *)
Definition load_from_web (u : string) : M (list Document) :=
  try_except
    (docs <- web_base_loader_load u ;;
     let full_text := Py.join (String Py.LF (String Py.LF ""))
                        (map page_content docs) in
     PageCache_save u full_text ;;;
     ret (split_documents docs))
    (λ e, ret []).

(** [if cached:] holds for a string that is not empty; [None] and the
    empty string both go on to the web. *)
Definition load_single_url (u : string) : M (list Document) :=
  cached <- PageCache_load u ;;
  match cached with
  | Some text =>
      if negb (String.eqb text "") then
        ret (split_documents [{| page_content := text; source := u |}])
      else load_from_web u
  | None => load_from_web u
  end.

(** *** [src/rag_chain.py] *)

Definition invoke_once (query : string) : M response :=
  λ w, (chain_invoke (chain_calls w) query, emit (ChainInvoke query) w).

(** [time.sleep]: [seconds], plus a random share of at most a tenth of
    it when [jitter] is set. *)
Definition time_sleep (seconds : Z) (jitter : bool) : M unit :=
  λ w, (Return (), emit (Sleep seconds jitter) w).

Definition max_delay : Z := 60.

(** The loop [for attempt in range(3)], with [attempts] iterations
    left and the current [delay]. *)
Fixpoint safe_invoke_loop (attempts : nat) (delay : Z) (query : string)
  : M response :=
  match attempts with
  | O =>
      ret {| answer := "Failed to get a response after multiple attempts. Please try again later.";
             context_docs := [] |}
  | S attempts =>
      try_except (invoke_once query)
        (λ e, match e with
              | ResourceExhausted _ =>
                  time_sleep 60 false ;;;
                  safe_invoke_loop attempts delay query
              | InternalServerError _ =>
                  time_sleep delay true ;;;
                  safe_invoke_loop attempts (Z.min (delay * 2) max_delay) query
              | _ =>
                  ret {| answer := "An error occurred: " +:+ exn_str e;
                         context_docs := [] |}
              end)
  end.

(** The exception classes the loop retries on. *)
Definition retryable (e : exn) : bool :=
  match e with
  | ResourceExhausted _ | InternalServerError _ => true
  | _ => false
  end.

Definition safe_invoke (query : string) : M response :=
  safe_invoke_loop 3 1 query.

Definition failed_response : response :=
  {| answer := "Failed to get a response after multiple attempts. Please try again later.";
     context_docs := [] |}.

(** One failed attempt that the loop retries on: the event it leaves
    and the delay the next attempt starts from. *)
Definition retry_sleep (delay : Z) (e : exn) : event :=
  match e with
  | InternalServerError _ => Sleep delay true
  | _ => Sleep 60 false
  end.

Definition retry_delay (delay : Z) (e : exn) : Z :=
  match e with
  | InternalServerError _ => Z.min (delay * 2) max_delay
  | _ => delay
  end.

(** ** Facts about the Python built-ins *)

Lemma slice_to_take {A : Type} (k : Z) (l : list A) :
  ∃ n, Py.slice_to k l = take n l.
Proof. unfold Py.slice_to. destruct (k <? 0); eauto. Qed.

Lemma slice_to_nonneg {A : Type} (k : Z) (l : list A) :
  0 ≤ k → Py.slice_to k l = take (Z.to_nat k) l.
Proof.
  intros Hk. unfold Py.slice_to.
  destruct (Z.ltb_spec k 0) as [Hlt|_]; [lia | reflexivity].
Qed.

Lemma slice_to_length {A : Type} (k : Z) (l : list A) :
  0 ≤ k → Z.of_nat (length (Py.slice_to k l)) ≤ k.
Proof.
  intros Hk. rewrite slice_to_nonneg by done. rewrite length_take. lia.
Qed.

Lemma slice_to_subseteq {A : Type} (k : Z) (l : list A) :
  Py.slice_to k l ⊆ l.
Proof.
  destruct (slice_to_take k l) as [n ->]. apply subseteq_take.
Qed.

Section SortFacts.
Context {A : Type} (lt : A → A → bool).

Lemma insert_desc_perm (x : A) (l : list A) :
  Py.insert_desc lt x l ≡ₚ x :: l.
Proof.
  induction l as [|y ys IH]; simpl; [done|].
  destruct (lt x y); [|done].
  rewrite IH. apply Permutation_swap.
Qed.

Lemma sort_desc_perm (l : list A) : Py.sort_desc lt l ≡ₚ l.
Proof.
  induction l as [|x l IH]; simpl; [done|].
  rewrite insert_desc_perm. by rewrite IH.
Qed.

Lemma sort_desc_length (l : list A) :
  length (Py.sort_desc lt l) = length l.
Proof. apply Permutation_length, sort_desc_perm. Qed.

(** Stability: elements that never compare less than one another keep
    their relative order. *)
Lemma insert_desc_filter (P : A → Prop) `{!∀ x, Decision (P x)}
  (x : A) (l : list A) :
  (∀ a b, P a → P b → lt a b = false) →
  filter P (Py.insert_desc lt x l) = filter P (x :: l).
Proof.
  intros Heq. induction l as [|y ys IH]; simpl; [done|].
  destruct (lt x y) eqn:Hxy; [|done].
  rewrite (filter_cons _ y), IH, !filter_cons.
  destruct (decide (P x)) as [Hx|Hx], (decide (P y)) as [Hy|Hy]; try done.
  rewrite (Heq x y Hx Hy) in Hxy. discriminate.
Qed.

Lemma sort_desc_filter (P : A → Prop) `{!∀ x, Decision (P x)} (l : list A) :
  (∀ a b, P a → P b → lt a b = false) →
  filter P (Py.sort_desc lt l) = filter P l.
Proof.
  intros Heq. induction l as [|x l IH]; simpl; [done|].
  rewrite insert_desc_filter by done.
  rewrite !filter_cons, IH. done.
Qed.

(** The output is in non-increasing order as soon as [lt] is
    asymmetric and its complement is transitive. *)
Hypothesis lt_asym : ∀ a b, lt a b = true → lt b a = false.
Hypothesis lt_negtrans :
  ∀ a b c, lt a b = false → lt b c = false → lt a c = false.

Lemma insert_desc_sorted (x : A) (l : list A) :
  StronglySorted (λ a b, lt a b = false) l →
  StronglySorted (λ a b, lt a b = false) (Py.insert_desc lt x l).
Proof.
  induction 1 as [|y ys Hs IH Hy]; simpl.
  - repeat constructor.
  - destruct (lt x y) eqn:Hxy.
    + constructor; [done|].
      rewrite insert_desc_perm. constructor; [by apply lt_asym | done].
    + constructor; [by constructor|].
      constructor; [done|].
      eapply Forall_impl; [exact Hy|].
      intros z Hz. by eapply lt_negtrans.
Qed.

Lemma sort_desc_sorted (l : list A) :
  StronglySorted (λ a b, lt a b = false) (Py.sort_desc lt l).
Proof.
  induction l as [|x l IH]; simpl; [constructor|].
  by apply insert_desc_sorted.
Qed.

End SortFacts.

Lemma StronglySorted_weaken {A : Type} (R S : A → A → Prop) (l : list A) :
  (∀ a b, R a b → S a b) → StronglySorted R l → StronglySorted S l.
Proof.
  intros HRS. induction 1 as [|x l _ IH Hx]; constructor; [done|].
  eapply Forall_impl; [exact Hx|]. intros b. apply HRS.
Qed.

(** Sorting commutes with decorating the elements, when the decoration
    carries the order. *)
Lemma sort_desc_map {A B : Type} (ltA : A → A → bool) (ltB : B → B → bool)
  (g : A → B) (l : list A) :
  (∀ a b, ltB (g a) (g b) = ltA a b) →
  Py.sort_desc ltB (map g l) = map g (Py.sort_desc ltA l).
Proof.
  intros Hg. induction l as [|x l IH]; simpl; [done|].
  rewrite IH. generalize (Py.sort_desc ltA l) as s.
  induction s as [|y ys IHs]; simpl; [done|].
  rewrite Hg. destruct (ltA x y); simpl; [by rewrite IHs | done].
Qed.

(** ** Text files *)

Lemma newline_out_plain (sep s : string) :
  Py.contains Py.LF s = false → Py.newline_out sep s = s.
Proof.
  induction s as [|c s IH]; simpl; [done|].
  intros [Hc Hs]%orb_false_iff. rewrite Hc. by rewrite IH.
Qed.

Lemma universal_newlines_plain (s : string) :
  Py.contains Py.CR s = false → Py.universal_newlines s = s.
Proof.
  induction s as [|c s IH]; simpl; [done|].
  intros [Hc Hs]%orb_false_iff. rewrite Hc. by rewrite IH.
Qed.

Lemma universal_newlines_other (c : ascii) (s : string) :
  Ascii.eqb c Py.CR = false →
  Py.universal_newlines (String c s) = String c (Py.universal_newlines s).
Proof. intros Hc. simpl. by rewrite Hc. Qed.

Lemma universal_newlines_crlf (s : string) :
  Py.universal_newlines (String Py.CR (String Py.LF s))
  = String Py.LF (Py.universal_newlines s).
Proof. reflexivity. Qed.

(** Text without carriage returns survives a write and a read, on a
    platform whose line separator is LF or CR LF. *)
Lemma text_roundtrip (sep s : string) :
  sep = String Py.LF "" ∨ sep = String Py.CR (String Py.LF "") →
  Py.contains Py.CR s = false →
  Py.universal_newlines (Py.newline_out sep s) = s.
Proof.
  intros Hsep. induction s as [|c s IH]; [done|].
  intros [Hc Hs]%orb_false_iff.
  change (Py.newline_out sep (String c s))
    with (if Ascii.eqb c Py.LF then sep +:+ Py.newline_out sep s
          else String c (Py.newline_out sep s)).
  destruct (Ascii.eqb_spec c Py.LF) as [->|Hne].
  - destruct Hsep as [-> | ->].
    + change (String Py.LF "" +:+ ?t) with (String Py.LF t).
      rewrite universal_newlines_other by done. by rewrite IH.
    + change (String Py.CR (String Py.LF "") +:+ ?t)
        with (String Py.CR (String Py.LF t)).
      rewrite universal_newlines_crlf. by rewrite IH.
  - rewrite universal_newlines_other by done. by rewrite IH.
Qed.

Lemma text_roundtrip_nonempty (sep s : string) :
  sep ≠ "" → s ≠ "" →
  Py.universal_newlines (Py.newline_out sep s) ≠ "".
Proof.
  intros Hsep Hs. destruct s as [|c s]; [done|]. simpl.
  assert (Hne : ∀ t, t ≠ "" → Py.universal_newlines t ≠ "").
  { intros [|a t] Ht; [done|]. simpl.
    destruct (Ascii.eqb a Py.CR); [|done].
    destruct t as [|b t]; [done|]. by destruct (Ascii.eqb b Py.LF). }
  destruct (Ascii.eqb c Py.LF).
  - apply Hne. destruct sep; [done|]. done.
  - by apply Hne.
Qed.

(** ** Saving a file *)

Lemma string_app_length (s t : string) :
  String.length (s +:+ t) = (String.length s + String.length t)%nat.
Proof.
  induction s as [|c s IH]; [done|].
  change (String c s +:+ t) with (String c (s +:+ t)). simpl. by rewrite IH.
Qed.

Lemma ancestors_from_shorter (rest : string) :
  ∀ seen p, p ∈ ancestors_from seen rest →
            (String.length p < String.length seen + String.length rest)%nat.
Proof.
  induction rest as [|c rest IH]; intros seen p; simpl.
  - by intros ?%elem_of_nil.
  - destruct (Ascii.eqb c "/").
    + intros [->|Hp%IH]%elem_of_cons; [lia|].
      rewrite string_app_length in Hp. simpl in Hp. lia.
    + intros Hp%IH. rewrite string_app_length in Hp. simpl in Hp. lia.
Qed.

Lemma ancestors_proper (path : string) : path ∉ ancestors path.
Proof. intros H%ancestors_from_shorter. simpl in H. lia. Qed.

Lemma isfile_true (d : gmap string file) (p : string) :
  isfile d p = true ↔ is_Some (d !! p).
Proof. unfold isfile. apply bool_decide_eq_true. Qed.

Lemma isfile_false (d : gmap string file) (p : string) :
  isfile d p = false ↔ d !! p = None.
Proof.
  unfold isfile. rewrite bool_decide_eq_false. symmetry.
  apply eq_None_not_Some.
Qed.

Lemma existsb_isfile_false (d : gmap string file) (l : list string) :
  existsb (isfile d) l = false ↔ Forall (λ p, d !! p = None) l.
Proof.
  induction l as [|p l IH]; simpl; [by split; [constructor|]|].
  rewrite orb_false_iff, Forall_cons, IH, isfile_false. done.
Qed.

Lemma existsb_isfile_true (d : gmap string file) (l : list string) :
  existsb (isfile d) l = true ↔ Exists (λ p, is_Some (d !! p)) l.
Proof.
  induction l as [|p l IH]; simpl.
  - split; [discriminate | by intros ?%Exists_nil].
  - rewrite orb_true_iff, Exists_cons, IH, isfile_true. done.
Qed.

Lemma ensure_directory_exists_eq (directory : string) (w : world) :
  ensure_directory_exists directory w
  = if isfile (disk w) directory then
      match os_fault (trace w) (Remove directory) with
      | Some e => (Raise e, w)
      | None =>
          os_makedirs directory
            {| disk := delete directory (disk w); trace := trace w |}
      end
    else os_makedirs directory w.
Proof.
  unfold ensure_directory_exists, bind, os_path_exists, os_remove, ret.
  destruct (isfile (disk w) directory); [|done].
  by destruct (os_fault (trace w) (Remove directory)).
Qed.

(** Whatever happens, making the directory adds no event and touches
    no other path. *)
Lemma ensure_directory_exists_frame (directory : string) (w : world) :
  trace (snd (ensure_directory_exists directory w)) = trace w
  ∧ ∀ p, p ≠ directory →
         disk (snd (ensure_directory_exists directory w)) !! p = disk w !! p.
Proof.
  rewrite ensure_directory_exists_eq. unfold os_makedirs.
  destruct (isfile (disk w) directory).
  - destruct (os_fault (trace w) (Remove directory)); [done|]. simpl.
    assert (Hd : ∀ r : result unit,
               ∀ p, p ≠ directory →
                    disk (snd (r, {| disk := delete directory (disk w);
                                     trace := trace w |})) !! p
                    = disk w !! p).
    { intros r p Hp. simpl. by rewrite lookup_delete_ne. }
    destruct (isfile _ _); [by split; [|apply Hd]|].
    destruct (existsb _ _); [by split; [|apply Hd]|].
    destruct (os_fault _ _); by split; [|apply Hd].
  - destruct (existsb _ _); [done|].
    destruct (os_fault _ _); done.
Qed.

Lemma ensure_directory_exists_ok (directory : string) (w : world) :
  Forall (λ p, disk w !! p = None) (ancestors directory) →
  os_fault (trace w) (Remove directory) = None →
  os_fault (trace w) (Makedirs directory) = None →
  ensure_directory_exists directory w
  = (Return (), {| disk := delete directory (disk w); trace := trace w |}).
Proof.
  intros Hanc Hrm Hmk. rewrite ensure_directory_exists_eq.
  assert (Hmake : ∀ d, d !! directory = None →
                       Forall (λ p, d !! p = None) (ancestors directory) →
                       os_makedirs directory {| disk := d; trace := trace w |}
                       = (Return (), {| disk := d; trace := trace w |})).
  { intros d Hd Hfree. unfold os_makedirs. simpl.
    apply isfile_false in Hd. apply existsb_isfile_false in Hfree.
    by rewrite Hd, Hfree, Hmk. }
  destruct (isfile (disk w) directory) eqn:Hfile.
  - rewrite Hrm. apply Hmake; [apply lookup_delete_eq|].
    eapply Forall_impl; [exact Hanc|]. intros p Hp. simpl in Hp.
    by apply lookup_delete_None; right.
  - apply isfile_false in Hfile. rewrite (delete_id _ _ Hfile).
    destruct w as [d t]. by apply Hmake.
Qed.

(** When the directory cannot be made, [ensure_directory_exists]
    raises. *)
Lemma ensure_directory_exists_blocked (directory : string) (w : world) :
  Exists (λ p, is_Some (disk w !! p)) (ancestors directory)
  ∨ is_Some (os_fault (trace w) (Makedirs directory)) →
  ∃ e, fst (ensure_directory_exists directory w) = Raise e.
Proof.
  intros Hblocked. rewrite ensure_directory_exists_eq.
  assert (Hmake : ∀ d,
             Exists (λ p, is_Some (d !! p)) (ancestors directory)
             ∨ is_Some (os_fault (trace w) (Makedirs directory)) →
             ∃ e, fst (os_makedirs directory {| disk := d; trace := trace w |})
                  = Raise e).
  { intros d Hd. unfold os_makedirs. simpl.
    destruct (isfile d directory); [eauto|].
    destruct (existsb (isfile d) (ancestors directory)) eqn:Hex; [eauto|].
    destruct Hd as [Hd%existsb_isfile_true | [e He]]; [congruence|].
    rewrite He. eauto. }
  destruct (isfile (disk w) directory).
  - destruct (os_fault (trace w) (Remove directory)); [eauto|].
    apply Hmake. destruct Hblocked as [Hex|Hmk]; [left | by right].
    apply Exists_exists in Hex as (p & Hp & Hsome).
    apply Exists_exists. exists p. split; [done|]. simpl.
    rewrite lookup_delete_ne; [done|].
    intros <-. by apply ancestors_proper in Hp.
  - destruct w as [d t]. by apply Hmake.
Qed.

(** The body of the two [save] methods, on any directory and path. *)
Lemma save_ok (directory path text : string) (w : world) :
  can_save directory path w →
  try_except (ensure_directory_exists directory ;;; write_text path text)
    (λ e, ret ()) w
  = (Return (), saved directory path text w).
Proof.
  intros (Hanc & Hrm & Hmk & Hop & Hwr). unfold try_except, bind.
  rewrite ensure_directory_exists_ok by done.
  unfold write_text. simpl. by rewrite Hop, Hwr.
Qed.

Lemma save_returns (directory path text : string) (w : world) :
  fst (try_except (ensure_directory_exists directory ;;; write_text path text)
         (λ e, ret ()) w)
  = Return ().
Proof.
  unfold try_except, bind.
  destruct (ensure_directory_exists directory w) as [[[]|e] w1]; [|done].
  unfold write_text.
  destruct (os_fault (trace w1) (OpenWrite path)); [done|].
  by destruct (os_fault (trace w1) (WriteData path)).
Qed.

(** Whether it goes through or not, a save touches no path but the
    directory and the file, and adds at most the event of its write. *)
Lemma save_frame (directory path text : string) (w : world) :
  let w' := snd (try_except
                   (ensure_directory_exists directory ;;; write_text path text)
                   (λ e, ret ()) w) in
  (∀ p, p ≠ directory → p ≠ path → disk w' !! p = disk w !! p)
  ∧ (trace w' = trace w ∨ trace w' = FileWrite path :: trace w).
Proof.
  pose proof (ensure_directory_exists_frame directory w) as [Ht Hd].
  unfold try_except, bind.
  destruct (ensure_directory_exists directory w) as [[[]|e] w1];
    simpl in *; [|split; [by auto | by left]].
  unfold write_text.
  destruct (os_fault (trace w1) (OpenWrite path)); simpl;
    [split; [by auto | by left]|].
  destruct (os_fault (trace w1) (WriteData path)); simpl.
  - split; [|by left]. intros p Hp1 Hp2. rewrite lookup_insert_ne by done.
    by apply Hd.
  - split; [|right; by rewrite Ht]. intros p Hp1 Hp2.
    rewrite lookup_insert_ne by done. by apply Hd.
Qed.

(** A save that cannot make its directory or open its file stores
    nothing. *)
Lemma save_blocked (directory path text : string) (w : world) :
  cannot_save directory path w →
  let w' := snd (try_except
                   (ensure_directory_exists directory ;;; write_text path text)
                   (λ e, ret ()) w) in
  trace w' = trace w ∧ ∀ p, p ≠ directory → disk w' !! p = disk w !! p.
Proof.
  intros Hno.
  pose proof (ensure_directory_exists_frame directory w) as [Ht Hd].
  assert (Hdir : (∃ e, fst (ensure_directory_exists directory w) = Raise e)
                 ∨ is_Some (os_fault (trace w) (OpenWrite path))).
  { destruct Hno as [H|[H|H]]; [left|left|by right];
      apply ensure_directory_exists_blocked; auto. }
  unfold try_except, bind.
  destruct (ensure_directory_exists directory w) as [[[]|e] w1];
    simpl in *; [|done].
  destruct Hdir as [[e He]|[e He]]; [discriminate|].
  unfold write_text. rewrite Ht, He. done.
Qed.

(** ** The caches *)

Lemma PageCache_save_returns (u text : string) (w : world) :
  PageCache_save u text w = (Return (), snd (PageCache_save u text w)).
Proof.
  pose proof (save_returns PAGE_CACHE_DIR (page_path u) text w) as H.
  fold (PageCache_save u text) in H.
  by destruct (PageCache_save u text w) as [[[]|e] w'].
Qed.

Lemma PageCache_save_eq (u text : string) (w : world) :
  can_save PAGE_CACHE_DIR (page_path u) w →
  PageCache_save u text w
  = (Return (), saved PAGE_CACHE_DIR (page_path u) text w).
Proof. apply save_ok. Qed.

Lemma PageCache_load_eq (u : string) (w : world) :
  PageCache_load u w = (Return (cached_page (disk w) u), w).
Proof.
  unfold PageCache_load, cached_page, try_except, bind, os_path_exists,
    read_text, ret, isfile.
  destruct (disk w !! page_path u) as [[chars|]|] eqn:Hd; simpl;
    rewrite ?Hd; done.
Qed.

Lemma EmbeddingCache_save_returns (u : string) (emb : embedding) (w : world) :
  EmbeddingCache_save u emb w = (Return (), snd (EmbeddingCache_save u emb w)).
Proof.
  pose proof (save_returns EMBEDDING_CACHE_DIR (embedding_path u)
                (json_dumps emb) w) as H.
  fold (EmbeddingCache_save u emb) in H.
  by destruct (EmbeddingCache_save u emb w) as [[[]|e] w'].
Qed.

Lemma EmbeddingCache_save_eq (u : string) (emb : embedding) (w : world) :
  can_save EMBEDDING_CACHE_DIR (embedding_path u) w →
  EmbeddingCache_save u emb w
  = (Return (),
     saved EMBEDDING_CACHE_DIR (embedding_path u) (json_dumps emb) w).
Proof. apply save_ok. Qed.

Lemma EmbeddingCache_load_eq (u : string) (w : world) :
  EmbeddingCache_load u w = (Return (cached_embedding (disk w) u), w).
Proof.
  unfold EmbeddingCache_load, cached_embedding, json_load, try_except, bind,
    os_path_exists, read_text, ret, raise, isfile.
  destruct (disk w !! embedding_path u) as [[chars|]|] eqn:Hd; simpl;
    rewrite ?Hd; [|done..].
  by destruct (json_loads (Py.universal_newlines chars)).
Qed.

Lemma string_app_inj_r (t s1 s2 : string) : s1 +:+ t = s2 +:+ t → s1 = s2.
Proof.
  revert s2. induction s1 as [|a s1 IH]; intros [|b s2] H.
  - done.
  - apply (f_equal String.length) in H.
    rewrite !string_app_length in H. simpl in H. lia.
  - apply (f_equal String.length) in H.
    rewrite !string_app_length in H. simpl in H. lia.
  - change (String a (s1 +:+ t) = String b (s2 +:+ t)) in H.
    injection H as -> H. f_equal. by apply IH.
Qed.

Lemma page_path_inj (u u' : string) :
  page_path u = page_path u' → hash_url u = hash_url u'.
Proof.
  unfold page_path, os_path_join. intros H.
  do 2 apply (inj (String.app _)) in H. by apply string_app_inj_r in H.
Qed.

Lemma embedding_path_inj (u u' : string) :
  embedding_path u = embedding_path u' → hash_url u = hash_url u'.
Proof.
  unfold embedding_path, os_path_join. intros H.
  do 2 apply (inj (String.app _)) in H. by apply string_app_inj_r in H.
Qed.

Lemma page_path_not_embedding_path (u u' : string) :
  page_path u ≠ embedding_path u'.
Proof. unfold page_path, embedding_path. discriminate. Qed.

Lemma cache_dir_not_page_path (u : string) :
  PAGE_CACHE_DIR ≠ page_path u ∧ EMBEDDING_CACHE_DIR ≠ page_path u.
Proof. unfold page_path. split; discriminate. Qed.

Lemma cache_dir_not_embedding_path (u : string) :
  PAGE_CACHE_DIR ≠ embedding_path u ∧ EMBEDDING_CACHE_DIR ≠ embedding_path u.
Proof. unfold embedding_path. split; discriminate. Qed.

(** Whether it goes through or not, a save of a page or of an
    embedding touches no path but its own file and directory. *)
Lemma PageCache_save_frame (u text : string) (w : world) :
  let w' := snd (PageCache_save u text w) in
  (∀ p, p ≠ PAGE_CACHE_DIR → p ≠ page_path u → disk w' !! p = disk w !! p)
  ∧ (trace w' = trace w ∨ trace w' = FileWrite (page_path u) :: trace w).
Proof. apply save_frame. Qed.

Lemma EmbeddingCache_save_frame (u : string) (emb : embedding) (w : world) :
  let w' := snd (EmbeddingCache_save u emb w) in
  (∀ p, p ≠ EMBEDDING_CACHE_DIR → p ≠ embedding_path u →
        disk w' !! p = disk w !! p)
  ∧ (trace w' = trace w ∨ trace w' = FileWrite (embedding_path u) :: trace w).
Proof. apply save_frame. Qed.

(** A save under another key leaves what [u] maps to alone. *)
Lemma run_op_frame (op : cache_op) (u : string) (w : world) :
  hash_url (op_identity op) ≠ hash_url u →
  disk (snd (run_op op w)) !! page_path u = disk w !! page_path u
  ∧ disk (snd (run_op op w)) !! embedding_path u
    = disk w !! embedding_path u.
Proof.
  intros Hne.
  destruct (cache_dir_not_page_path u) as [Hpp Hep].
  destruct (cache_dir_not_embedding_path u) as [Hpe Hee].
  assert (Hpe' : ∀ a b, embedding_path a ≠ page_path b).
  { intros a b H. by eapply page_path_not_embedding_path. }
  destruct op as [u' text|u' emb]; simpl in *.
  - destruct (PageCache_save_frame u' text w) as [Hd _].
    split; apply Hd;
      first [done | by intros ?%page_path_inj
            | apply page_path_not_embedding_path | apply Hpe'].
  - destruct (EmbeddingCache_save_frame u' emb w) as [Hd _].
    split; apply Hd;
      first [done | by intros ?%embedding_path_inj
            | apply page_path_not_embedding_path | apply Hpe'].
Qed.

Lemma run_ops_frame (ops : list cache_op) (u : string) (w : world) :
  Forall (λ op, hash_url (op_identity op) ≠ hash_url u) ops →
  disk (run_ops ops w) !! page_path u = disk w !! page_path u
  ∧ disk (run_ops ops w) !! embedding_path u = disk w !! embedding_path u.
Proof.
  intros Hops. revert w.
  induction Hops as [|op ops Hop _ IH]; intros w; simpl; [done|].
  destruct (IH (snd (run_op op w))) as [-> ->].
  by apply run_op_frame.
Qed.

(** ** Counting events *)

Lemma count_events_emit (p : event → bool) (e : event) (w : world) :
  count_events p (emit e w)
  = if p e then S (count_events p w) else count_events p w.
Proof. unfold count_events. simpl. by destruct (p e). Qed.

(** ** Loops *)

Lemma for_each_app {A S : Type} (xs ys : list A) (body : S → A → M S) :
  ∀ (acc : S) (w : world),
    for_each (xs ++ ys) body acc w
    = match for_each xs body acc w with
      | (Return acc', w') => for_each ys body acc' w'
      | (Raise e, w') => (Raise e, w')
      end.
Proof.
  induction xs as [|x xs IH]; intros acc w; simpl; [done|].
  unfold bind. destruct (body acc x w) as [[acc1|e] w1]; [apply IH | done].
Qed.

(** ** [load_single_url] *)

Lemma load_from_web_ok (u : string) (w : world) (docs : list Document) :
  web_loader (web_loads w) u = Return docs →
  load_from_web u w =
  (Return (split_documents docs),
   snd (PageCache_save u
          (Py.join (String Py.LF (String Py.LF "")) (map page_content docs))
          (emit (WebLoad u) w))).
Proof.
  intros Hweb. unfold load_from_web, try_except, bind, web_base_loader_load.
  rewrite Hweb. rewrite PageCache_save_returns. reflexivity.
Qed.

Lemma load_from_web_fail (u : string) (w : world) (e : exn) :
  web_loader (web_loads w) u = Raise e →
  load_from_web u w = (Return [], emit (WebLoad u) w).
Proof.
  intros Hweb. unfold load_from_web, try_except, bind, web_base_loader_load.
  rewrite Hweb. reflexivity.
Qed.

Lemma load_single_url_hit (u text : string) (w : world) :
  cached_page (disk w) u = Some text → text ≠ "" →
  load_single_url u w =
  (Return (split_documents [{| page_content := text; source := u |}]), w).
Proof.
  intros Hc Hne. unfold load_single_url, bind.
  rewrite PageCache_load_eq, Hc. simpl.
  destruct (String.eqb_spec text "") as [->|_]; done.
Qed.

Lemma load_single_url_miss (u : string) (w : world) :
  cached_page (disk w) u = None →
  load_single_url u w = load_from_web u w.
Proof.
  intros Hc. unfold load_single_url, bind.
  rewrite PageCache_load_eq, Hc. done.
Qed.

(** ** [safe_invoke] *)

Lemma safe_invoke_loop_retry (query : string) (k : nat) (delay : Z)
  (w : world) (e : exn) :
  chain_invoke (chain_calls w) query = Raise e → retryable e = true →
  safe_invoke_loop (S k) delay query w
  = safe_invoke_loop k (retry_delay delay e) query
      (emit (retry_sleep delay e) (emit (ChainInvoke query) w)).
Proof.
  intros He Hr. simpl. unfold try_except, invoke_once. rewrite He.
  destruct e; try discriminate; reflexivity.
Qed.

Lemma safe_invoke_loop_success (query : string) (k : nat) (delay : Z)
  (w : world) (r : response) :
  chain_invoke (chain_calls w) query = Return r →
  safe_invoke_loop (S k) delay query w = (Return r, emit (ChainInvoke query) w).
Proof.
  intros He. simpl. unfold try_except, invoke_once. by rewrite He.
Qed.

Lemma safe_invoke_loop_fatal (query : string) (k : nat) (delay : Z)
  (w : world) (e : exn) :
  chain_invoke (chain_calls w) query = Raise e → retryable e = false →
  safe_invoke_loop (S k) delay query w
  = (Return {| answer := "An error occurred: " +:+ exn_str e;
               context_docs := [] |},
     emit (ChainInvoke query) w).
Proof.
  intros He Hr. simpl. unfold try_except, invoke_once. rewrite He.
  destruct e; try discriminate; reflexivity.
Qed.

Lemma chain_calls_invoke (query : string) (w : world) :
  chain_calls (emit (ChainInvoke query) w) = S (chain_calls w).
Proof. apply count_events_emit. Qed.

Lemma chain_calls_retry (delay : Z) (e : exn) (query : string) (w : world) :
  chain_calls (emit (retry_sleep delay e) (emit (ChainInvoke query) w))
  = S (chain_calls w).
Proof.
  unfold chain_calls. rewrite !count_events_emit. by destruct e.
Qed.

Lemma safe_invoke_loop_returns (query : string) (k : nat) :
  ∀ (delay : Z) (w : world),
    ∃ r w', safe_invoke_loop k delay query w = (Return r, w')
            ∧ (chain_calls w ≤ chain_calls w' ≤ chain_calls w + k)%nat
            ∧ (1 ≤ k → chain_calls w + 1 ≤ chain_calls w')%nat.
Proof.
  induction k as [|k IH]; intros delay w.
  - eexists _, _. split; [reflexivity|]. lia.
  - assert (Hc : chain_calls (emit (ChainInvoke query) w) = S (chain_calls w))
      by apply count_events_emit.
    destruct (chain_invoke (chain_calls w) query) as [r|e] eqn:He.
    { rewrite (safe_invoke_loop_success _ _ _ _ _ He).
      eexists _, _. split; [reflexivity|]. lia. }
    destruct (retryable e) eqn:Hr.
    + rewrite (safe_invoke_loop_retry _ _ _ _ _ He Hr).
      destruct (IH (retry_delay delay e)
                  (emit (retry_sleep delay e) (emit (ChainInvoke query) w)))
        as (r & w' & -> & Hle & _).
      rewrite chain_calls_retry in Hle.
      eexists _, _. split; [reflexivity|]. lia.
    + rewrite (safe_invoke_loop_fatal _ _ _ _ _ He Hr).
      eexists _, _. split; [reflexivity|]. lia.
Qed.

(** ** Selecting the links to embed *)

Lemma slice_to_map {A B : Type} (g : A → B) (k : Z) (l : list A) :
  Py.slice_to k (map g l) = map g (Py.slice_to k l).
Proof.
  unfold Py.slice_to. rewrite length_map.
  destruct (k <? 0); by rewrite <- fmap_take.
Qed.

Lemma scored_by_keywords_eq (query : string) (link_data : list link) :
  scored_by_keywords query link_data
  = map (λ l, (lexical_score query l, l)) (lexical_order query link_data).
Proof.
  unfold scored_by_keywords, lexical_order.
  apply (sort_desc_map
           (λ a b, (lexical_score query a <? lexical_score query b)%nat)
           (λ x y : nat * link, (fst x <? fst y)%nat)).
  done.
Qed.

Lemma select_by_budget_eq (query : string) (link_data : list link) :
  select_by_budget query link_data
  = Py.slice_to (TOTAL_EMBEDDING_BUDGET - 1) (lexical_order query link_data).
Proof.
  unfold select_by_budget. rewrite scored_by_keywords_eq, slice_to_map.
  rewrite map_map. simpl. apply map_id.
Qed.

Lemma lexical_order_perm (query : string) (link_data : list link) :
  lexical_order query link_data ≡ₚ link_data.
Proof. apply sort_desc_perm. Qed.

Lemma backfill_loop_eq (urls : gset string) (min_links : Z)
  (links : list link) :
  ∀ selected_links : list link,
    Z.of_nat (length selected_links) < min_links →
    backfill_loop urls min_links links selected_links
    = selected_links
      ++ take (Z.to_nat (min_links - Z.of_nat (length selected_links)))
           (filter (λ l, url l ∉ urls) links).
Proof.
  induction links as [|l rest IH]; intros sel Hlt; simpl.
  - rewrite filter_nil, take_nil. by rewrite app_nil_r.
  - rewrite filter_cons. destruct (decide (url l ∉ urls)) as [Hl|Hl].
    + replace (Z.to_nat (min_links - Z.of_nat (length sel)))
        with (S (Z.to_nat (min_links - Z.of_nat (length sel) - 1))) by lia.
      simpl. rewrite length_app. simpl.
      destruct (Z.leb_spec min_links (Z.of_nat (length sel + 1))) as [Hge|Hlt'].
      * replace (Z.to_nat (min_links - Z.of_nat (length sel) - 1)) with 0%nat
          by lia.
        by rewrite take_0.
      * rewrite IH by (rewrite length_app; simpl; lia).
        rewrite length_app. simpl. rewrite <- app_assoc. simpl.
        do 3 f_equal. lia.
    + by apply IH.
Qed.

Lemma backfill_eq (min_links : Z) (link_data selected_links : list link) :
  backfill min_links link_data selected_links
  = if Z.of_nat (length selected_links) <? min_links then
      selected_links
      ++ take (Z.to_nat (min_links - Z.of_nat (length selected_links)))
           (filter (λ l, url l ∉ map url selected_links) link_data)
    else selected_links.
Proof.
  unfold backfill.
  destruct (Z.ltb_spec (Z.of_nat (length selected_links)) min_links); [|done].
  rewrite backfill_loop_eq by done. do 2 f_equal.
  apply list_filter_iff. intros l. by rewrite elem_of_list_to_set.
Qed.

Lemma backfill_length (min_links : Z) (link_data selected_links : list link) :
  Z.of_nat (length (backfill min_links link_data selected_links))
  ≤ Z.max (Z.of_nat (length selected_links)) min_links.
Proof.
  rewrite backfill_eq.
  destruct (Z.ltb_spec (Z.of_nat (length selected_links)) min_links); [|lia].
  rewrite length_app, length_take. lia.
Qed.

Lemma backfill_subseteq (min_links : Z) (link_data selected_links : list link) :
  selected_links ⊆ link_data →
  backfill min_links link_data selected_links ⊆ link_data.
Proof.
  intros Hsub. rewrite backfill_eq.
  destruct (Z.of_nat (length selected_links) <? min_links); [|done].
  intros l [Hl|Hl]%elem_of_app; [by apply Hsub|].
  apply subseteq_take in Hl. by apply list_elem_of_filter in Hl as [_ ?].
Qed.

Lemma select_by_budget_subseteq (query : string) (link_data : list link) :
  select_by_budget query link_data ⊆ link_data.
Proof.
  rewrite select_by_budget_eq. intros l Hl%slice_to_subseteq.
  by rewrite <- (lexical_order_perm query link_data).
Qed.

Lemma select_links_subseteq (query : string) (link_data : list link)
  (min_links : Z) :
  select_links query link_data min_links ⊆ link_data.
Proof. apply backfill_subseteq, select_by_budget_subseteq. Qed.

(** ** Embedding the selected links *)

Lemma embed_query_eq (query : string) (w : world) :
  embed_query query w
  = (embed_service (embed_calls w) query, emit (EmbedCall query) w).
Proof.
  unfold embed_query, try_except, embeddings_embed_query, raise.
  by destruct (embed_service (embed_calls w) query).
Qed.

Lemma embed_document_eq (text : string) (w : world) :
  embed_document text w
  = (embed_service (embed_calls w) text, emit (EmbedCall text) w).
Proof. apply embed_query_eq. Qed.

Lemma embed_calls_emit (text : string) (w : world) :
  embed_calls (emit (EmbedCall text) w) = S (embed_calls w).
Proof. apply count_events_emit. Qed.

Lemma embed_calls_after_miss (l : link) (emb : embedding) (w : world) :
  embed_calls (after_miss l emb w) = S (embed_calls w).
Proof.
  unfold after_miss.
  destruct (EmbeddingCache_save_frame (url l) emb
              (emit (EmbedCall (context l)) w)) as [_ [Ht|Ht]];
    unfold embed_calls, count_events; by rewrite Ht.
Qed.

Lemma score_link_hit (qe : embedding) (acc : list (score * string))
  (l : link) (w : world) (v : embedding) :
  cached_embedding (disk w) (url l) = Some v →
  score_link qe acc l w
  = match cosine_similarity qe v with
    | Return s => (Return (acc ++ [(s, url l)]), w)
    | Raise e => (Raise e, w)
    end.
Proof.
  intros Hc. unfold score_link, bind.
  rewrite EmbeddingCache_load_eq, Hc. unfold ret, of_result.
  by destruct (cosine_similarity qe v).
Qed.

Lemma score_link_miss (qe : embedding) (acc : list (score * string))
  (l : link) (w : world) :
  cached_embedding (disk w) (url l) = None →
  score_link qe acc l w
  = match embed_service (embed_calls w) (context l) with
    | Raise e => (Raise e, emit (EmbedCall (context l)) w)
    | Return emb =>
        match cosine_similarity qe emb with
        | Return s => (Return (acc ++ [(s, url l)]), after_miss l emb w)
        | Raise e => (Raise e, after_miss l emb w)
        end
    end.
Proof.
  intros Hc. unfold score_link, bind.
  rewrite EmbeddingCache_load_eq, Hc, embed_document_eq.
  destruct (embed_service (embed_calls w) (context l)) as [emb|e]; [|done].
  rewrite EmbeddingCache_save_returns. unfold ret, of_result, after_miss.
  by destruct (cosine_similarity qe emb).
Qed.

Lemma score_link_world (qe : embedding) (acc : list (score * string))
  (l : link) (w : world) :
  snd (score_link qe acc l w) = after_turn l w.
Proof.
  unfold after_turn.
  destruct (cached_embedding (disk w) (url l)) as [v|] eqn:Hc.
  - rewrite (score_link_hit _ _ _ _ _ Hc). by destruct (cosine_similarity qe v).
  - rewrite (score_link_miss _ _ _ _ Hc).
    destruct (embed_service (embed_calls w) (context l)) as [emb|e]; [|done].
    by destruct (cosine_similarity qe emb).
Qed.

Lemma score_link_step (qe : embedding) (acc : list (score * string))
  (l : link) (w : world) (r : result (list (score * string))) (w' : world) :
  score_link qe acc l w = (r, w') →
  (embed_calls w ≤ embed_calls w' ≤ embed_calls w + 1)%nat
  ∧ ∀ scored, r = Return scored →
      ∃ s emb, scored = acc ++ [(s, url l)]
               ∧ vector_for l emb w
               ∧ cosine_similarity qe emb = Return s.
Proof.
  destruct (cached_embedding (disk w) (url l)) as [v|] eqn:Hc.
  - rewrite (score_link_hit _ _ _ _ _ Hc).
    destruct (cosine_similarity qe v) as [s|e] eqn:Hs;
      intros [= <- <-]; (split; [lia|]); intros scored [= <-].
    exists s, v. unfold vector_for. eauto.
  - rewrite (score_link_miss _ _ _ _ Hc).
    destruct (embed_service (embed_calls w) (context l)) as [emb|e] eqn:He.
    + destruct (cosine_similarity qe emb) as [s|e] eqn:Hs;
        intros [= <- <-]; rewrite embed_calls_after_miss;
        (split; [lia|]); intros scored [= <-].
      exists s, emb. unfold vector_for. eauto.
    + intros [= <- <-]. rewrite embed_calls_emit. split; [lia|]. done.
Qed.

Lemma score_links_spec (qe : embedding) (selected : list link) :
  ∀ (acc : list (score * string)) (w : world)
    (r : result (list (score * string))) (w' : world),
    for_each selected (score_link qe) acc w = (r, w') →
    (embed_calls w ≤ embed_calls w' ≤ embed_calls w + length selected)%nat
    ∧ ∀ scored, r = Return scored →
        ∃ new, scored = acc ++ new ∧ scored_in_run qe selected w new.
Proof.
  induction selected as [|l rest IH]; intros acc w r w'; simpl.
  - intros [= <- <-]. split; [lia|]. intros scored [= <-].
    exists []. by rewrite app_nil_r.
  - unfold bind at 1. pose proof (score_link_world qe acc l w) as Hw.
    destruct (score_link qe acc l w) as [[acc1|e] w1] eqn:Hstep;
      apply score_link_step in Hstep as [Hcalls Hres]; simpl in Hw.
    + intros Hrest. apply IH in Hrest as [Hcalls' Hres'].
      split; [lia|]. intros scored ->.
      destruct (Hres _ eq_refl) as (s & emb & -> & Hv & Hs).
      destruct (Hres' _ eq_refl) as (new & -> & Hnew).
      exists ((s, url l) :: new). rewrite <- app_assoc. split; [done|].
      simpl. rewrite <- Hw. eauto.
    + intros [= <- <-]. split; [lia|]. done.
Qed.

Lemma scored_in_run_urls (qe : embedding) (selected : list link) :
  ∀ (w : world) (scored : list (score * string)),
    scored_in_run qe selected w scored → map snd scored = map url selected.
Proof.
  induction selected as [|l rest IH]; intros w [|p scored]; simpl; try done.
  intros (Hp & _ & Hrest). rewrite Hp. f_equal. by eapply IH.
Qed.

(** The ranker in one equation: the handlers turn every exception of
    the body into an empty list and touch nothing. *)
Lemma rank_eq (query : string) (link_data : list link) (top_k min_links : Z)
  (w : world) :
  rank_links_by_query_relevance query link_data top_k min_links w
  = (Return match fst (rank_body query link_data top_k min_links w) with
            | Return urls => urls
            | Raise _ => []
            end,
     snd (rank_body query link_data top_k min_links w)).
Proof.
  unfold rank_links_by_query_relevance, try_except.
  destruct (rank_body query link_data top_k min_links w) as [[urls|e] w'];
    [done|]. by destruct e.
Qed.

Lemma rank_body_eq (query : string) (link_data : list link)
  (top_k min_links : Z) (w : world) :
  rank_body query link_data top_k min_links w
  = match embed_service (embed_calls w) query with
    | Raise e => (Raise e, emit (EmbedCall query) w)
    | Return qe =>
        match for_each (select_links query link_data min_links)
                (score_link qe) [] (emit (EmbedCall query) w) with
        | (Return scored_links, w') =>
            (Return (map snd (Py.slice_to top_k
                                (Py.sort_desc tuple_lt scored_links))), w')
        | (Raise e, w') => (Raise e, w')
        end
    end.
Proof.
  unfold rank_body, bind. rewrite embed_query_eq.
  by destruct (embed_service (embed_calls w) query).
Qed.

Lemma rank_body_calls (query : string) (link_data : list link)
  (top_k min_links : Z) (w : world) :
  let w' := snd (rank_body query link_data top_k min_links w) in
  (embed_calls w + 1 ≤ embed_calls w'
   ≤ embed_calls w + 1 + length (select_links query link_data min_links))%nat.
Proof.
  rewrite rank_body_eq.
  destruct (embed_service (embed_calls w) query) as [qe|e]; simpl.
  - destruct (for_each _ _ _ _) as [r w'] eqn:Hloop.
    apply score_links_spec in Hloop as [Hcalls _].
    rewrite embed_calls_emit in Hcalls.
    destruct r; simpl; lia.
  - rewrite embed_calls_emit. lia.
Qed.

(** ** The budget of embedding calls *)

Lemma select_by_budget_length (query : string) (link_data : list link) :
  1 ≤ TOTAL_EMBEDDING_BUDGET →
  Z.of_nat (length (select_by_budget query link_data))
  ≤ TOTAL_EMBEDDING_BUDGET - 1.
Proof.
  intros HB. rewrite select_by_budget_eq. apply slice_to_length. lia.
Qed.

(** C1, as amended: for every budget [B ≥ 1], every [min_links] and
    every candidate list, one invocation of the ranker issues at most
    [max B (min_links + 1)] embedding calls (the query embedding and at
    most [max (B - 1) min_links] document embeddings), whatever the number
    of candidates; in particular at most [B] when [min_links < B]. *)
Theorem rank_embedding_calls_bound (query : string) (link_data : list link)
  (top_k min_links : Z) (w : world) :
  1 ≤ TOTAL_EMBEDDING_BUDGET →
  let w' := snd (rank_links_by_query_relevance query link_data
                   top_k min_links w) in
  Z.of_nat (embed_calls w' - embed_calls w)
  ≤ Z.max TOTAL_EMBEDDING_BUDGET (min_links + 1)
  ∧ (min_links < TOTAL_EMBEDDING_BUDGET →
     Z.of_nat (embed_calls w' - embed_calls w) ≤ TOTAL_EMBEDDING_BUDGET).
Proof.
  intros HB. rewrite rank_eq. simpl.
  pose proof (rank_body_calls query link_data top_k min_links w) as Hcalls.
  simpl in Hcalls.
  pose proof (backfill_length min_links link_data
                (select_by_budget query link_data)) as Hfill.
  pose proof (select_by_budget_length query link_data HB) as Hsel.
  fold (select_links query link_data min_links) in Hfill.
  split; [|intros Hmin]; lia.
Qed.

(** C2, as amended: on the empty candidate list the ranker returns
    the empty list and issues exactly one embedding call, the one for
    the query; it issues no document embedding. *)
Theorem rank_empty_candidates (query : string) (top_k min_links : Z)
  (w : world) :
  rank_links_by_query_relevance query [] top_k min_links w
  = (Return [], emit (EmbedCall query) w)
  ∧ embed_calls (emit (EmbedCall query) w) = S (embed_calls w).
Proof.
  split; [|apply embed_calls_emit].
  rewrite rank_eq, rank_body_eq.
  assert (Hsel : select_links query [] min_links = []).
  { unfold select_links. rewrite backfill_eq, select_by_budget_eq.
    destruct (slice_to_take (TOTAL_EMBEDDING_BUDGET - 1)
                (lexical_order query [])) as [n ->].
    unfold lexical_order. simpl. rewrite take_nil. simpl.
    destruct (Z.of_nat 0 <? min_links); [|done].
    by rewrite filter_nil, take_nil. }
  rewrite Hsel. simpl.
  destruct (embed_service (embed_calls w) query) as [qe|e]; simpl; [|done].
  destruct (slice_to_take top_k (@nil (score * string))) as [n ->].
  by rewrite take_nil.
Qed.

(** ** The lexical prefilter and the selection set *)

(** C4: the selection set before backfill is the first [B - 1]
    elements of the candidate list sorted stably by descending lexical
    score: of a list that is a permutation of the candidates, is in
    non-increasing order of score, and keeps the candidates of each
    score in their original order. *)
Theorem selection_is_prefix_of_stable_order (query : string)
  (link_data : list link) :
  1 ≤ TOTAL_EMBEDDING_BUDGET →
  ∃ sorted : list link,
    select_by_budget query link_data
    = take (Z.to_nat (TOTAL_EMBEDDING_BUDGET - 1)) sorted
    ∧ sorted ≡ₚ link_data
    ∧ StronglySorted
        (λ a b, (lexical_score query b ≤ lexical_score query a)%nat) sorted
    ∧ ∀ k : nat,
        filter (λ l, lexical_score query l = k) sorted
        = filter (λ l, lexical_score query l = k) link_data.
Proof.
  intros HB. exists (lexical_order query link_data).
  split; [|split; [|split]].
  - rewrite select_by_budget_eq. apply slice_to_nonneg. lia.
  - apply lexical_order_perm.
  - unfold lexical_order.
    eapply StronglySorted_weaken; [|apply sort_desc_sorted].
    + intros a b Hab. apply Nat.ltb_ge in Hab. exact Hab.
    + intros a b Hab%Nat.ltb_lt. apply Nat.ltb_ge. lia.
    + intros a b c Hab%Nat.ltb_ge Hbc%Nat.ltb_ge. apply Nat.ltb_ge. lia.
  - intros k. apply sort_desc_filter.
    intros a b -> <-. apply Nat.ltb_irrefl.
Qed.

(** ** Backfill *)

Lemma filter_none {A : Type} (P : A → Prop) `{!∀ x, Decision (P x)}
  (l : list A) :
  (∀ x, x ∈ l → ¬ P x) → filter P l = [].
Proof.
  induction l as [|x l IH]; intros Hl; [done|].
  rewrite filter_cons_False by (apply Hl; left).
  apply IH. intros y Hy. apply Hl. by right.
Qed.

Lemma filter_all {A : Type} (P : A → Prop) `{!∀ x, Decision (P x)}
  (l : list A) :
  (∀ x, x ∈ l → P x) → filter P l = l.
Proof.
  induction l as [|x l IH]; intros Hl; [done|].
  rewrite filter_cons_True by (apply Hl; left).
  f_equal. apply IH. intros y Hy. apply Hl. by right.
Qed.

(** With distinct URLs, the candidates whose URL is not among those of a
    prefix are exactly the rest of the list. *)
Lemma filter_unselected (pre post : list link) :
  NoDup (map url (pre ++ post)) →
  filter (λ l, url l ∉ map url pre) (pre ++ post) = post.
Proof.
  rewrite map_app. intros (_ & Hdisj & _)%NoDup_app.
  rewrite filter_app, filter_none, filter_all; [done| |].
  - intros l Hl Hin. apply (Hdisj (url l)); [done|].
    by apply (list_elem_of_fmap_2 url).
  - intros l Hl Hnot. apply Hnot. by apply (list_elem_of_fmap_2 url).
Qed.

Lemma unselected_length (query : string) (link_data : list link) :
  NoDup (map url link_data) →
  let selected := select_by_budget query link_data in
  (length (filter (λ l, url l ∉ map url selected) link_data)
   = length link_data - length selected)%nat.
Proof.
  intros Hnd selected.
  pose proof (lexical_order_perm query link_data) as Hperm.
  assert (Hsel : ∃ n, selected = take n (lexical_order query link_data)).
  { unfold selected. rewrite select_by_budget_eq. apply slice_to_take. }
  destruct Hsel as [n Hsel].
  rewrite <- (Permutation_length Hperm).
  rewrite <- (Permutation_length
                (filter_Permutation (λ l, url l ∉ map url selected) _ _ Hperm)).
  rewrite <- (take_drop n (lexical_order query link_data)) at 1.
  rewrite Hsel, filter_unselected.
  - rewrite length_drop, length_take. lia.
  - rewrite take_drop.
    change (NoDup (url <$> lexical_order query link_data)).
    by rewrite Hperm.
Qed.

(** C5: for candidates with pairwise-distinct URLs, a selection set
    smaller than [min_links] is extended by the candidates not already
    selected, in the order of the candidate list, until it has
    [min_links] elements or the list is exhausted; a selection set that
    is large enough is left as it is; and the set handed to the
    embedding stage has at least [min min_links N] elements, [N] being
    the number of candidates. *)
Theorem backfill_reaches_min_links (query : string) (link_data : list link)
  (min_links : Z) :
  NoDup (map url link_data) →
  let selected := select_by_budget query link_data in
  let final := select_links query link_data min_links in
  (Z.of_nat (length selected) < min_links →
   final = selected
           ++ take (Z.to_nat (min_links - Z.of_nat (length selected)))
                (filter (λ l, url l ∉ map url selected) link_data))
  ∧ (min_links ≤ Z.of_nat (length selected) → final = selected)
  ∧ Z.min min_links (Z.of_nat (length link_data)) ≤ Z.of_nat (length final).
Proof.
  intros Hnd selected final.
  pose proof (unselected_length query link_data Hnd) as Hrest.
  simpl in Hrest. fold selected in Hrest.
  assert (Hle : (length selected ≤ length link_data)%nat).
  { unfold selected. rewrite select_by_budget_eq.
    destruct (slice_to_take (TOTAL_EMBEDDING_BUDGET - 1)
                (lexical_order query link_data)) as [n ->].
    rewrite length_take, (Permutation_length (lexical_order_perm _ _)). lia. }
  unfold final, select_links. rewrite backfill_eq. fold selected.
  destruct (Z.ltb_spec (Z.of_nat (length selected)) min_links) as [Hlt|Hge].
  - split; [done|]. split; [lia|].
    rewrite length_app, length_take, Hrest. lia.
  - split; [lia|]. split; [done|]. lia.
Qed.

(** ** Failures inside the ranker *)

(** C6: the ranker always returns normally; when the call that embeds
    the query fails, and more generally whenever anything in the body
    raises (an authorization error, a forbidden access, any other
    exception), what it returns is the empty list. *)
Theorem rank_never_raises (query : string) (link_data : list link)
  (top_k min_links : Z) (w : world) :
  ∃ urls w',
    rank_links_by_query_relevance query link_data top_k min_links w
    = (Return urls, w')
    ∧ (∀ e, embed_service (embed_calls w) query = Raise e → urls = [])
    ∧ (∀ e w'', rank_body query link_data top_k min_links w = (Raise e, w'') →
         urls = [] ∧ w' = w'').
Proof.
  eexists _, _. split; [apply rank_eq|]. split.
  - intros e He. rewrite rank_body_eq, He. done.
  - intros e w'' ->. done.
Qed.

(** C10, as amended: a document embedding is requested from the
    provider directly, once, with no retry.  On a cache hit the cached
    vector is used and no call is issued; on a miss one call is issued
    and its vector is saved under the path of the URL, where it stands
    afterwards when the file system lets the file be saved (a save that
    fails is logged and ignored); when that call fails, with whatever
    class of error, the turn raises after this single call; and a
    ranking in which the call for any selected candidate fails, the
    turns before it having gone through, stops there and returns the
    empty list, whatever the provider would answer to a later call. *)
Theorem document_embedding_single_attempt (query : string)
  (link_data : list link) (top_k min_links : Z) (qe : embedding)
  (acc : list (score * string)) (l : link) (w : world) :
  (∀ v, cached_embedding (disk w) (url l) = Some v →
     ∃ r, score_link qe acc l w = (r, w)
          ∧ ∀ s, cosine_similarity qe v = Return s →
                 r = Return (acc ++ [(s, url l)]))
  ∧ (∀ emb, cached_embedding (disk w) (url l) = None →
       embed_service (embed_calls w) (context l) = Return emb →
       ∃ r, score_link qe acc l w = (r, after_miss l emb w)
            ∧ (∀ s, cosine_similarity qe emb = Return s →
                    r = Return (acc ++ [(s, url l)]))
            ∧ embed_calls (after_miss l emb w) = S (embed_calls w)
            ∧ (can_save EMBEDDING_CACHE_DIR (embedding_path (url l))
                 (emit (EmbedCall (context l)) w) →
               disk (after_miss l emb w) !! embedding_path (url l)
               = Some (Text (Py.newline_out linesep (json_dumps emb)))))
  ∧ (∀ e, cached_embedding (disk w) (url l) = None →
       embed_service (embed_calls w) (context l) = Raise e →
       score_link qe acc l w = (Raise e, emit (EmbedCall (context l)) w))
  ∧ (∀ e w0 before after scored,
       embed_service (embed_calls w0) query = Return qe →
       select_links query link_data min_links = before ++ l :: after →
       for_each before (score_link qe) [] (emit (EmbedCall query) w0)
       = (Return scored, w) →
       cached_embedding (disk w) (url l) = None →
       embed_service (embed_calls w) (context l) = Raise e →
       rank_links_by_query_relevance query link_data top_k min_links w0
       = (Return [], emit (EmbedCall (context l)) w)).
Proof.
  split; [|split; [|split]].
  - intros v Hc. rewrite (score_link_hit _ _ _ _ _ Hc).
    destruct (cosine_similarity qe v) as [s|e]; eexists; (split; [done|]).
    + by intros ? [= ->].
    + done.
  - intros emb Hc He. rewrite (score_link_miss _ _ _ _ Hc), He.
    assert (Hdisk : can_save EMBEDDING_CACHE_DIR (embedding_path (url l))
                      (emit (EmbedCall (context l)) w) →
                    disk (after_miss l emb w) !! embedding_path (url l)
                    = Some (Text (Py.newline_out linesep (json_dumps emb)))).
    { intros Hok. unfold after_miss. rewrite EmbeddingCache_save_eq by done.
      apply lookup_insert_eq. }
    destruct (cosine_similarity qe emb) as [s|e]; eexists;
      (split; [done|]);
      (split; [|split; [apply embed_calls_after_miss | exact Hdisk]]).
    + by intros ? [= ->].
    + done.
  - intros e Hc He. by rewrite (score_link_miss _ _ _ _ Hc), He.
  - intros e w0 before after scored Hq Hsel Hbefore Hc He.
    rewrite rank_eq, rank_body_eq, Hq, Hsel, for_each_app, Hbefore. simpl.
    unfold bind. rewrite score_link_miss by done.
    rewrite He. done.
Qed.

(** ** The final order *)

Lemma string_ltb_leb (a b : string) : String.ltb a b = negb (String.leb b a).
Proof.
  unfold String.ltb, String.leb. rewrite (String.compare_antisym b a).
  by destruct (String.compare a b).
Qed.

Lemma string_ltb_asym (a b : string) :
  String.ltb a b = true → String.ltb b a = false.
Proof.
  rewrite !string_ltb_leb. intros Hab%negb_true_iff.
  destruct (String.leb_total a b) as [H|H]; [by rewrite H | congruence].
Qed.

Lemma string_ltb_negtrans (a b c : string) :
  String.ltb a b = false → String.ltb b c = false → String.ltb a c = false.
Proof.
  rewrite !string_ltb_leb, !negb_false_iff.
  intros Hba%Is_true_true Hcb%Is_true_true. apply Is_true_true.
  change (String.le c a). by trans b.
Qed.

Section TupleOrder.
Hypothesis score_ltb_asym : ∀ a b, score_ltb a b = true → score_ltb b a = false.
Hypothesis score_ltb_negtrans :
  ∀ a b c, score_ltb a b = false → score_ltb b c = false → score_ltb a c = false.

Lemma tuple_lt_asym (p q : score * string) :
  tuple_lt p q = true → tuple_lt q p = false.
Proof.
  destruct p as [a x], q as [b y]. unfold tuple_lt, score_eqb. simpl.
  pose proof (score_ltb_asym a b) as Hab.
  pose proof (string_ltb_asym x y) as Hxy.
  destruct (score_ltb a b), (score_ltb b a); simpl; auto.
Qed.

Lemma tuple_lt_negtrans (p q r : score * string) :
  tuple_lt p q = false → tuple_lt q r = false → tuple_lt p r = false.
Proof.
  destruct p as [a x], q as [b y], r as [c z]. unfold tuple_lt, score_eqb.
  simpl.
  pose proof (score_ltb_asym a b). pose proof (score_ltb_asym b a).
  pose proof (score_ltb_asym b c). pose proof (score_ltb_asym c b).
  pose proof (score_ltb_asym a c). pose proof (score_ltb_asym c a).
  pose proof (score_ltb_negtrans a b c). pose proof (score_ltb_negtrans c b a).
  pose proof (score_ltb_negtrans a c b). pose proof (score_ltb_negtrans b c a).
  pose proof (score_ltb_negtrans b a c). pose proof (score_ltb_negtrans c a b).
  pose proof (string_ltb_negtrans x y z).
  destruct (score_ltb a b), (score_ltb b a), (score_ltb b c),
    (score_ltb c b), (score_ltb a c), (score_ltb c a);
    simpl; intros;
    repeat match goal with
           | H : ?x = ?x → _ |- _ => specialize (H eq_refl)
           | H : true = false → _ |- _ => clear H
           | H : false = true → _ |- _ => clear H
           end;
    first [congruence | by auto].
Qed.

Lemma tuple_lt_ranked_before (p q : score * string) :
  tuple_lt p q = false → ranked_before p q.
Proof.
  unfold tuple_lt, ranked_before, score_eqb.
  destruct (score_ltb (fst p) (fst q)), (score_ltb (fst q) (fst p));
    simpl; intros H; (split; [|intros H']); congruence.
Qed.

Lemma StronglySorted_take {A : Type} (R : A → A → Prop) (n : nat) (l : list A) :
  StronglySorted R l → StronglySorted R (take n l).
Proof.
  intros Hl. revert n.
  induction Hl as [|x l _ IH Hx]; intros [|n]; simpl; try constructor.
  - apply IH.
  - eapply Forall_forall. intros y Hy%subseteq_take.
    by eapply Forall_forall in Hx.
Qed.

Lemma StronglySorted_app_order {A : Type} (R : A → A → Prop) (l1 l2 : list A) :
  StronglySorted R (l1 ++ l2) → ∀ a b, a ∈ l1 → b ∈ l2 → R a b.
Proof.
  induction l1 as [|x l1 IH]; simpl; intros Hs a b Ha Hb.
  - by apply elem_of_nil in Ha.
  - apply StronglySorted_inv in Hs as [Hs Hx].
    apply elem_of_cons in Ha as [->|Ha]; [|by apply IH].
    eapply Forall_forall in Hx; [exact Hx|]. apply elem_of_app. by right.
Qed.

Lemma ranked_sorted (top_k : Z) (scored_links : list (score * string)) :
  StronglySorted ranked_before
    (Py.slice_to top_k (Py.sort_desc tuple_lt scored_links)).
Proof.
  destruct (slice_to_take top_k (Py.sort_desc tuple_lt scored_links))
    as [n ->].
  apply StronglySorted_take.
  eapply StronglySorted_weaken; [apply tuple_lt_ranked_before|].
  apply sort_desc_sorted; [apply tuple_lt_asym | apply tuple_lt_negtrans].
Qed.

End TupleOrder.

(** C3, as amended: the URLs the ranker returns are URLs of
    candidates, at most [top_k] of them when [top_k ≥ 0], in
    non-increasing order of similarity; candidates of equal similarity
    come in descending order of their URL strings (the tuples
    [(score, url)] are sorted in reverse), not in their lexical order.
    The similarities are those of the run: unless the body raised (and
    the result is empty), the loop has scored every selected candidate,
    in order, by the cosine similarity between the embedding of the
    query and the vector the candidate had when its turn came, from
    the cache or else from the provider; the entries returned are
    entries of this list, and none of the entries left out ranks before
    one that is returned. *)
Theorem rank_output_order (query : string) (link_data : list link)
  (top_k min_links : Z) (w : world) :
  (∀ a b, score_ltb a b = true → score_ltb b a = false) →
  (∀ a b c, score_ltb a b = false → score_ltb b c = false →
            score_ltb a c = false) →
  ∃ (ranked : list (score * string)) (w' : world),
    rank_links_by_query_relevance query link_data top_k min_links w
    = (Return (map snd ranked), w')
    ∧ (∀ u, u ∈ map snd ranked → u ∈ map url link_data)
    ∧ (0 ≤ top_k → Z.of_nat (length (map snd ranked)) ≤ top_k)
    ∧ StronglySorted ranked_before ranked
    ∧ ((∃ e, rank_body query link_data top_k min_links w = (Raise e, w')
             ∧ ranked = [])
       ∨ ∃ (qe : embedding) (scored rest : list (score * string)),
           embed_service (embed_calls w) query = Return qe
           ∧ scored_in_run qe (select_links query link_data min_links)
               (emit (EmbedCall query) w) scored
           ∧ ranked ++ rest ≡ₚ scored
           ∧ (∀ p q, p ∈ ranked → q ∈ rest → ranked_before p q)
           ∧ (0 ≤ top_k →
              length ranked = Nat.min (Z.to_nat top_k) (length scored))).
Proof.
  intros Hasym Hnt.
  assert (Hnil : ∀ e w',
             rank_body query link_data top_k min_links w = (Raise e, w') →
             ∃ (ranked : list (score * string)) (w'' : world),
               (Return (@nil string), w') = (Return (map snd ranked), w'')
               ∧ (∀ u, u ∈ map snd ranked → u ∈ map url link_data)
               ∧ (0 ≤ top_k → Z.of_nat (length (map snd ranked)) ≤ top_k)
               ∧ StronglySorted ranked_before ranked
               ∧ ((∃ e, rank_body query link_data top_k min_links w
                        = (Raise e, w'') ∧ ranked = [])
                  ∨ ∃ (qe : embedding) (scored rest : list (score * string)),
                      embed_service (embed_calls w) query = Return qe
                      ∧ scored_in_run qe
                          (select_links query link_data min_links)
                          (emit (EmbedCall query) w) scored
                      ∧ ranked ++ rest ≡ₚ scored
                      ∧ (∀ p q, p ∈ ranked → q ∈ rest → ranked_before p q)
                      ∧ (0 ≤ top_k →
                         length ranked
                         = Nat.min (Z.to_nat top_k) (length scored)))).
  { intros e w' Hbody. exists [], w'. simpl. split; [done|].
    split; [by intros u ?%elem_of_nil|]. split; [lia|].
    split; [constructor|]. left. eauto. }
  rewrite rank_eq.
  destruct (rank_body query link_data top_k min_links w) as [[urls|e] w']
    eqn:Hbody; simpl; [|by eapply Hnil].
  rewrite rank_body_eq in Hbody.
  destruct (embed_service (embed_calls w) query) as [qe|e] eqn:Hq;
    [|discriminate].
  destruct (for_each _ _ _ _) as [[scored|e] w1] eqn:Hloop; [|discriminate].
  injection Hbody as <- <-.
  apply score_links_spec in Hloop as [_ Hres].
  destruct (Hres _ eq_refl) as (new & -> & Hrun). simpl in *.
  pose proof (scored_in_run_urls _ _ _ _ Hrun) as Hurls.
  pose proof (sort_desc_perm tuple_lt new) as Hperm.
  assert (Hsorted : StronglySorted ranked_before (Py.sort_desc tuple_lt new)).
  { eapply StronglySorted_weaken; [apply tuple_lt_ranked_before|].
    apply sort_desc_sorted;
      [by apply tuple_lt_asym | by apply tuple_lt_negtrans]. }
  assert (Hcut : ∃ n, Py.slice_to top_k (Py.sort_desc tuple_lt new)
                      = take n (Py.sort_desc tuple_lt new)
                      ∧ (0 ≤ top_k → n = Z.to_nat top_k)).
  { unfold Py.slice_to. destruct (Z.ltb_spec top_k 0); eexists;
      (split; [reflexivity|]); [lia | done]. }
  destruct Hcut as (n & Hcut & Hn).
  exists (Py.slice_to top_k (Py.sort_desc tuple_lt new)), w1.
  split; [done|]. split; [|split; [|split]].
  - intros u (p & -> & Hp)%(list_elem_of_fmap_1 snd).
    apply slice_to_subseteq in Hp. rewrite Hperm in Hp.
    apply (list_elem_of_fmap_2 snd) in Hp.
    change (p.2 ∈ map snd new) in Hp. rewrite Hurls in Hp.
    apply (list_elem_of_fmap_1 url) in Hp as (l & -> & Hl).
    apply (list_elem_of_fmap_2 url). by eapply select_links_subseteq.
  - intros Hk. rewrite length_map. by apply slice_to_length.
  - by apply ranked_sorted.
  - right. exists qe, new, (drop n (Py.sort_desc tuple_lt new)).
    split; [done|]. split; [done|]. rewrite Hcut.
    split; [by rewrite take_drop|]. split.
    + apply StronglySorted_app_order. by rewrite take_drop.
    + intros Hk. rewrite length_take, sort_desc_length, (Hn Hk). done.
Qed.

(** ** The claims on the caches, the page loader and the retry loop *)

(** C7, as amended: when the file system lets the file be saved, a
    load after a save of the same identity returns the payload for
    every embedding vector and for every page text that holds no
    carriage return (page text is read back with each CR LF and each
    lone CR turned into LF); when the cache directory cannot be made or
    the file cannot be opened, the save returns all the same, writes
    nothing, and a load returns what it returned before; a load of an
    identity that no save touched, or whose stored data cannot be
    decoded or parsed, returns [None]; and neither a load nor a save
    ever raises. *)
Theorem cache_save_load_roundtrip :
  (linesep = String Py.LF "" ∨ linesep = String Py.CR (String Py.LF "")) →
  (∀ emb, json_loads (json_dumps emb) = Some emb) →
  (∀ emb, Py.contains Py.CR (json_dumps emb) = false
          ∧ Py.contains Py.LF (json_dumps emb) = false) →
  (∀ u text w,
     can_save PAGE_CACHE_DIR (page_path u) w →
     let w' := snd (PageCache_save u text w) in
     PageCache_load u w'
     = (Return (Some (Py.universal_newlines (Py.newline_out linesep text))), w')
     ∧ (Py.contains Py.CR text = false →
        PageCache_load u w' = (Return (Some text), w')))
  ∧ (∀ u emb w,
       can_save EMBEDDING_CACHE_DIR (embedding_path u) w →
       let w' := snd (EmbeddingCache_save u emb w) in
       EmbeddingCache_load u w' = (Return (Some emb), w'))
  ∧ (∀ u text w,
       cannot_save PAGE_CACHE_DIR (page_path u) w →
       let w' := snd (PageCache_save u text w) in
       trace w' = trace w
       ∧ fst (PageCache_load u w') = fst (PageCache_load u w))
  ∧ (∀ u emb w,
       cannot_save EMBEDDING_CACHE_DIR (embedding_path u) w →
       let w' := snd (EmbeddingCache_save u emb w) in
       trace w' = trace w
       ∧ fst (EmbeddingCache_load u w') = fst (EmbeddingCache_load u w))
  ∧ (∀ u ops w,
       disk w = ∅ →
       Forall (λ op, hash_url (op_identity op) ≠ hash_url u) ops →
       let w' := run_ops ops w in
       PageCache_load u w' = (Return None, w')
       ∧ EmbeddingCache_load u w' = (Return None, w'))
  ∧ (∀ u w, disk w !! page_path u = Some Undecodable →
            PageCache_load u w = (Return None, w))
  ∧ (∀ u w,
       disk w !! embedding_path u = Some Undecodable
       ∨ (∃ chars, disk w !! embedding_path u = Some (Text chars)
                   ∧ json_loads (Py.universal_newlines chars) = None) →
       EmbeddingCache_load u w = (Return None, w))
  ∧ (∀ u w, ∃ o, PageCache_load u w = (Return o, w))
  ∧ (∀ u w, ∃ o, EmbeddingCache_load u w = (Return o, w))
  ∧ (∀ u text w, fst (PageCache_save u text w) = Return ())
  ∧ (∀ u emb w, fst (EmbeddingCache_save u emb w) = Return ()).
Proof.
  intros Hsep Hjson Hplain.
  split; [|split; [|split; [|split; [|split; [|split; [|split;
    [|split; [|split; [|split]]]]]]]]].
  - intros u text w Hok w'. unfold w'.
    rewrite PageCache_load_eq, PageCache_save_eq by done. simpl.
    unfold cached_page. simpl. rewrite lookup_insert_eq. split; [done|].
    intros Hcr. by rewrite text_roundtrip.
  - intros u emb w Hok w'. unfold w'.
    rewrite EmbeddingCache_load_eq, EmbeddingCache_save_eq by done. simpl.
    unfold cached_embedding. simpl. rewrite lookup_insert_eq.
    destruct (Hplain emb) as [Hcr Hlf].
    rewrite newline_out_plain, universal_newlines_plain by done.
    by rewrite Hjson.
  - intros u text w Hno w'.
    destruct (save_blocked PAGE_CACHE_DIR (page_path u) text w Hno)
      as [Ht Hd].
    fold (PageCache_save u text) in Ht, Hd. split; [exact Ht|].
    rewrite !PageCache_load_eq. simpl. unfold cached_page, w'.
    rewrite Hd; [done|]. intros H. destruct (cache_dir_not_page_path u) as [Hn _]. by apply Hn.
  - intros u emb w Hno w'.
    destruct (save_blocked EMBEDDING_CACHE_DIR (embedding_path u)
                (json_dumps emb) w Hno) as [Ht Hd].
    fold (EmbeddingCache_save u emb) in Ht, Hd. split; [exact Ht|].
    rewrite !EmbeddingCache_load_eq. simpl. unfold cached_embedding, w'.
    rewrite Hd; [done|]. intros H. destruct (cache_dir_not_embedding_path u) as [_ Hn]. by apply Hn.
  - intros u ops w Hempty Hops w'. unfold w'.
    rewrite PageCache_load_eq, EmbeddingCache_load_eq.
    unfold cached_page, cached_embedding.
    destruct (run_ops_frame ops u w Hops) as [-> ->].
    by rewrite Hempty, !lookup_empty.
  - intros u w Hd. rewrite PageCache_load_eq. unfold cached_page.
    by rewrite Hd.
  - intros u w Hd. rewrite EmbeddingCache_load_eq. unfold cached_embedding.
    destruct Hd as [-> | (chars & -> & ->)]; done.
  - intros u w. eexists. apply PageCache_load_eq.
  - intros u w. eexists. apply EmbeddingCache_load_eq.
  - intros u text w. by rewrite PageCache_save_returns.
  - intros u emb w. by rewrite EmbeddingCache_save_returns.
Qed.

(** C8, as amended: for a URL that has no page text in the cache and
    whose fetch succeeds with non-empty text, when the file system lets
    the page be saved, two calls of [load_single_url] issue one network
    fetch and one cache write in all: the first call fetches and
    writes, the second returns the chunks of the cached text and leaves
    the world as it found it.  When the cache directory cannot be made
    or the file cannot be opened, the first call still returns the
    chunks of the fetched page but writes nothing, the URL stays
    without page text in the cache, and the second call goes to the
    web again. *)
Theorem load_single_url_twice (u : string) (w : world) (docs : list Document) :
  linesep ≠ "" →
  cached_page (disk w) u = None →
  web_loader (web_loads w) u = Return docs →
  Py.join (String Py.LF (String Py.LF "")) (map page_content docs) ≠ "" →
  (can_save PAGE_CACHE_DIR (page_path u) (emit (WebLoad u) w) →
   ∃ (w1 : world) (cached_text : string),
     load_single_url u w = (Return (split_documents docs), w1)
     ∧ web_loads w1 = S (web_loads w)
     ∧ file_writes w1 = S (file_writes w)
     ∧ cached_page (disk w1) u = Some cached_text
     ∧ load_single_url u w1
       = (Return (split_documents
                    [{| page_content := cached_text; source := u |}]), w1))
  ∧ (cannot_save PAGE_CACHE_DIR (page_path u) (emit (WebLoad u) w) →
     ∃ w1 : world,
       load_single_url u w = (Return (split_documents docs), w1)
       ∧ web_loads w1 = S (web_loads w)
       ∧ file_writes w1 = file_writes w
       ∧ cached_page (disk w1) u = None
       ∧ load_single_url u w1 = load_from_web u w1
       ∧ web_loads (snd (load_single_url u w1)) = S (S (web_loads w))).
Proof.
  intros Hsep Hcold Hweb Htext. split.
  - intros Hok. eexists _, _. split.
    { rewrite load_single_url_miss by done.
      rewrite (load_from_web_ok _ _ _ Hweb), PageCache_save_eq by done.
      reflexivity. }
    split; [done|]. split; [done|].
    assert (Hc : ∀ d text,
               cached_page (<[page_path u := Text text]> d) u
               = Some (Py.universal_newlines text)).
    { intros d text. unfold cached_page. by rewrite lookup_insert_eq. }
    split; [apply Hc|].
    apply load_single_url_hit; [apply Hc|].
    by apply text_roundtrip_nonempty.
  - intros Hno.
    destruct (save_blocked PAGE_CACHE_DIR (page_path u)
                (Py.join (String Py.LF (String Py.LF ""))
                   (map page_content docs))
                (emit (WebLoad u) w) Hno) as [Ht Hd].
    fold (PageCache_save u
            (Py.join (String Py.LF (String Py.LF "")) (map page_content docs)))
      in Ht, Hd.
    eexists. split.
    { rewrite load_single_url_miss by done. by apply load_from_web_ok. }
    assert (Hloads : web_loads
                       (snd (PageCache_save u
                               (Py.join (String Py.LF (String Py.LF ""))
                                  (map page_content docs))
                               (emit (WebLoad u) w)))
                     = S (web_loads w)).
    { unfold web_loads, count_events. by rewrite Ht. }
    assert (Hcold' : cached_page
                       (disk (snd (PageCache_save u
                                     (Py.join (String Py.LF (String Py.LF ""))
                                        (map page_content docs))
                                     (emit (WebLoad u) w)))) u
                     = None).
    { unfold cached_page. rewrite Hd; [exact Hcold|].
      intros H. destruct (cache_dir_not_page_path u) as [Hn _]. by apply Hn. }
    split; [exact Hloads|].
    split; [unfold file_writes, count_events; by rewrite Ht|].
    split; [exact Hcold'|].
    split; [by apply load_single_url_miss|].
    rewrite load_single_url_miss by done.
    unfold load_from_web, try_except, bind, web_base_loader_load.
    rewrite <- Hloads.
    set (w1 := snd (PageCache_save _ _ _)).
    assert (Hemit : web_loads (emit (WebLoad u) w1) = S (web_loads w1))
      by apply count_events_emit.
    destruct (web_loader (web_loads w1) u) as [docs'|e]; [|done].
    rewrite PageCache_save_returns. simpl.
    destruct (PageCache_save_frame u
                (Py.join (String Py.LF (String Py.LF ""))
                   (map page_content docs')) (emit (WebLoad u) w1))
      as [_ [Ht'|Ht']];
      unfold web_loads, count_events in *; rewrite Ht'; exact Hemit.
Qed.

(** C9: the retry loop always returns, after one to three attempts.
    A call that fails twice with a server-side error and then succeeds
    gives the success value after exactly three attempts, with a sleep
    of 1 and then of 2 seconds (plus jitter) in between; a call that
    fails with an error of any other class than quota or server-side (an
    authorization error, say) is attempted once and answered at once by
    the structured error; three failures of the retried classes give the
    structured failure after exactly three attempts. *)
Theorem safe_invoke_attempts (query : string) (w : world) :
  let n := chain_calls w in
  (∃ r w', safe_invoke query w = (Return r, w')
           ∧ (n + 1 ≤ chain_calls w' ≤ n + 3)%nat)
  ∧ (∀ m1 m2 r,
       chain_invoke n query = Raise (InternalServerError m1) →
       chain_invoke (S n) query = Raise (InternalServerError m2) →
       chain_invoke (S (S n)) query = Return r →
       ∃ w', safe_invoke query w = (Return r, w')
             ∧ chain_calls w' = (n + 3)%nat
             ∧ trace w' = [ChainInvoke query; Sleep 2 true; ChainInvoke query;
                           Sleep 1 true; ChainInvoke query] ++ trace w)
  ∧ (∀ e, chain_invoke n query = Raise e → retryable e = false →
          safe_invoke query w
          = (Return {| answer := "An error occurred: " +:+ exn_str e;
                       context_docs := [] |},
             emit (ChainInvoke query) w))
  ∧ (∀ e1 e2 e3,
       chain_invoke n query = Raise e1 → retryable e1 = true →
       chain_invoke (S n) query = Raise e2 → retryable e2 = true →
       chain_invoke (S (S n)) query = Raise e3 → retryable e3 = true →
       ∃ w', safe_invoke query w = (Return failed_response, w')
             ∧ chain_calls w' = (n + 3)%nat).
Proof.
  intros n. unfold safe_invoke. split; [|split; [|split]].
  - destruct (safe_invoke_loop_returns query 3 1 w)
      as (r & w' & Heq & Hle & Hge).
    exists r, w'. split; [done|]. unfold n. lia.
  - intros m1 m2 r H1 H2 H3.
    rewrite (safe_invoke_loop_retry _ _ _ _ _ H1 eq_refl).
    rewrite (safe_invoke_loop_retry _ _ _ _ (InternalServerError m2));
      [|by rewrite chain_calls_retry|done].
    rewrite (safe_invoke_loop_success _ _ _ _ r);
      [|by rewrite !chain_calls_retry].
    eexists. split; [done|]. split; [|done].
    rewrite chain_calls_invoke, !chain_calls_retry. unfold n. lia.
  - intros e He Hr. by apply safe_invoke_loop_fatal.
  - intros e1 e2 e3 H1 Hr1 H2 Hr2 H3 Hr3.
    rewrite (safe_invoke_loop_retry _ _ _ _ _ H1 Hr1).
    rewrite (safe_invoke_loop_retry _ _ _ _ e2);
      [|by rewrite chain_calls_retry|done].
    rewrite (safe_invoke_loop_retry _ _ _ _ e3);
      [|by rewrite !chain_calls_retry|done].
    eexists. split; [done|].
    rewrite !chain_calls_retry. unfold n. lia.
Qed.

(** * The rest of the sources

    The functions the ranking, caching and retry code sits among:
    definitions first, then what they guarantee. *)

Section Rest.

(** *** [src/crawling.py], link extraction *)

(** An [<a href=...>] element as BeautifulSoup hands it over: its
    [href] attribute, [get_text(strip=True)], and its [title]
    attribute when it has one. *)
Record anchor : Type := {
  anchor_href : string;
  anchor_text : string;
  anchor_title : option string
}.

(** [requests.get(url, headers=HEADERS, timeout=10)] with
    [raise_for_status()]: the answer to the [n]-th fetch of the
    process, a response that stands here for its text. *)
Variable http_get : nat → string → result string.
(** [BeautifulSoup(resp.text, "lxml")] and
    [soup.find_all("a", href=True)]: the anchors that carry an [href],
    in document order.  It raises when the parser is not installed or
    gives up. *)
Variable find_anchors : string → result (list anchor).
(** [urllib.parse.urljoin], which raises [ValueError] on a reference it
    cannot parse (["http://["], say). *)
Variable urljoin : string → string → result string.

Definition requests_get (u : string) : M string :=
  λ w, (http_get (web_loads w) u, emit (WebLoad u) w).

(** The loop [for a in soup.find_all("a", href=True)], on the anchors
    that are left.  Nothing catches what [urljoin] raises. *)
Fixpoint extract_loop (main_url : string) (max_links : Z)
  (anchors : list anchor) (seen : gset string) (link_data : list link)
  : result (list link) :=
  match anchors with
  | [] => Return link_data
  | a :: rest =>
      match urljoin main_url (anchor_href a) with
      | Raise e => Raise e
      | Return href =>
          if negb (String.prefix "http" href) || bool_decide (href ∈ seen) then
            extract_loop main_url max_links rest seen link_data
          else
            let text := anchor_text a in
            let title := default "" (anchor_title a) in
            let context := Py.join " " [text; title; href] in
            let seen := {[href]} ∪ seen in
            let link_data :=
              link_data ++ [{| url := href; context := context |}] in
            if max_links <=? Z.of_nat (length link_data) then Return link_data
            else extract_loop main_url max_links rest seen link_data
      end
  end.

(** Only the request is inside the [try]. *)
Definition extract_link_contexts (main_url : string) (max_links : Z)
  : M (list link) :=
  fetched <- try_except (text <- requests_get main_url ;; ret (Some text))
               (λ e, ret None) ;;
  match fetched with
  | None => ret []
  | Some text =>
      anchors <- of_result (find_anchors text) ;;
      of_result (extract_loop main_url max_links anchors ∅ [])
  end.

(** *** [src/cache_manager.py], [CacheManager.initialize] *)

Definition CacheManager_initialize : M unit :=
  ensure_directory_exists PAGE_CACHE_DIR ;;;
  ensure_directory_exists EMBEDDING_CACHE_DIR.

(** *** [src/vectorstore.py] *)

(** [FAISS.from_documents(docs, self.embeddings)]: it embeds the
    documents through the provider, so it is a computation in the
    world. *)
Variable faiss_index : Type.
Variable FAISS_from_documents : list Document → M faiss_index.

(** The object's one field that changes, [self.db]. *)
Record VectorStore : Type := {
  db : option faiss_index
}.

(** [self.db.as_retriever(search_type="similarity", search_kwargs={"k": k})] *)
Record retriever : Type := {
  retriever_db : faiss_index;
  retriever_k : Z
}.

Definition VectorStore_init : VectorStore := {| db := None |}.

(** [if not docs:] returns [self] as it is. *)
Definition build_from_documents (self : VectorStore) (docs : list Document)
  : M VectorStore :=
  match docs with
  | [] => ret self
  | _ :: _ =>
      try_except
        (built <- FAISS_from_documents docs ;; ret {| db := Some built |})
        (λ e, raise e)
  end.

Definition as_retriever (self : VectorStore) (k : Z) : M retriever :=
  match db self with
  | None =>
      raise (OtherException
               "Vector store not initialized. Call build_from_documents first.")
  | Some built => ret {| retriever_db := built; retriever_k := k |}
  end.

(** *** [src/rag_chain.py], the rest of [RAGChain] *)

Definition RETRIEVER_K : Z := 3.

(** [RAGChain.__init__]: the chain is built on the store's retriever;
    what it answers when invoked is [chain_invoke]. *)
Record RAGChain : Type := {
  chain_retriever : retriever
}.

Definition RAGChain_init (vectorstore : VectorStore) : M RAGChain :=
  r <- as_retriever vectorstore RETRIEVER_K ;;
  ret {| chain_retriever := r |}.

Definition invoke (self : RAGChain) (query : string) : M response :=
  safe_invoke query.

(** A result dictionary as [format_results] reads it, with
    [dict.get]: the ["answer"] key if present, the ["context"] key if
    present, and for each context document its [metadata["source"]] if
    present. *)
Record result_dict : Type := {
  get_answer : option string;
  get_context : option (list (option string))
}.

(** The dictionary a [response] is: both keys are there, and every
    document has a source. *)
Definition as_dict (r : response) : result_dict :=
  {| get_answer := Some (answer r);
     get_context := Some (map (λ doc, Some (source doc)) (context_docs r)) |}.

Definition format_results (result : result_dict) : string * list string :=
  let answer := default "No answer generated" (get_answer result) in
  let context_docs := default [] (get_context result) in
  let sources :=
    match context_docs with
    | [] => []
    | _ :: _ => map (λ doc_source, default "Unknown source" doc_source) context_docs
    end in
  (answer, sources).

(** *** [main.py], [run_rag_pipeline] *)

Definition MAIN_URLS : list string :=
  ["https://handbook.gitlab.com/handbook/";
   "https://about.gitlab.com/direction/"].
Definition MAX_LINKS_PER_SITE : Z := 250.
Definition TOP_K_LINKS : Z := 20.

(** Steps 1 and 2 when no source is given: the links of every main
    page, one page after the other, then the ranking with the default
    [min_links]. *)
Definition gather_links : M (list link) :=
  for_each MAIN_URLS
    (λ all_links main_url,
       link_data <- extract_link_contexts main_url MAX_LINKS_PER_SITE ;;
       ret (all_links ++ link_data))
    [].

Definition rank_main_pages (query : string) : M (list string) :=
  all_links <- gather_links ;;
  rank_links_by_query_relevance query all_links TOP_K_LINKS 10.

(** [time.time()], as a reading that depends on what has happened so
    far, and the difference of two readings. *)
Variable seconds : Type.
Variable time_time : list event → seconds.
Variable seconds_sub : seconds → seconds → seconds.

Definition read_clock : M seconds := λ w, (Return (time_time (trace w)), w).

(** The path of [run_rag_pipeline] for a source that is a non-empty
    string ([if source:]): steps 3 to 5 on that one URL.  The progress
    messages and the log lines change nothing in the world. *)
Definition run_rag_pipeline_source (query source : string)
  : M (string * list string * seconds) :=
  start_time <- read_clock ;;
  docs <- load_single_url source ;;
  vectorstore <- build_from_documents VectorStore_init docs ;;
  rag_chain <- RAGChain_init vectorstore ;;
  result <- invoke rag_chain query ;;
  let '(answer, sources) := format_results (as_dict result) in
  end_time <- read_clock ;;
  let elapsed_time := seconds_sub end_time start_time in
  ret (answer, sources, elapsed_time).

(** *** Notions the statements below use *)

(** The link the loop builds from one anchor and its resolved
    reference. *)
Definition link_of_anchor (a : anchor) (href : string) : link :=
  {| url := href;
     context := Py.join " " [anchor_text a; default "" (anchor_title a); href] |}.

(** [hrefs] are the references of [anchors], resolved against
    [main_url]: [urljoin] raises on none of them. *)
Definition resolved (main_url : string) (anchors : list anchor)
  (hrefs : list string) : Prop :=
  Forall2 (λ a href, urljoin main_url (anchor_href a) = Return href)
    anchors hrefs.

(** The [n]-th fetch, of the page at [main_url], fails, or it answers
    with a document that the parser reads and whose references all
    resolve. *)
Definition well_formed (n : nat) (main_url : string) : Prop :=
  match http_get n main_url with
  | Raise _ => True
  | Return text =>
      ∃ anchors hrefs, find_anchors text = Return anchors
                       ∧ resolved main_url anchors hrefs
  end.

(** A URL is warm on a disk when a load of its embedding finds a vector. *)
Definition warm (d : gmap string file) (u : string) : Prop :=
  is_Some (cached_embedding d u).

(** The jittered delays the loop can sleep with [k] attempts left and
    the current [delay]. *)
Fixpoint backoff_delay (k : nat) (delay s : Z) : Prop :=
  match k with
  | O => False
  | S k =>
      s = delay
      ∨ backoff_delay k (Z.min (delay * 2) max_delay) s
      ∨ backoff_delay k delay s
  end.

Definition loop_event (query : string) (k : nat) (delay : Z) (e : event)
  : Prop :=
  e = ChainInvoke query ∨ e = Sleep 60 false
  ∨ ∃ s, e = Sleep s true ∧ backoff_delay k delay s.

(** The exception of [as_retriever] on a store without index. *)
Definition not_initialized : exn :=
  OtherException "Vector store not initialized. Call build_from_documents first.".

(** ** Link extraction *)

Lemma extract_loop_spec (main_url : string) (max_links : Z)
  (anchors : list anchor) (hrefs : list string) :
  resolved main_url anchors hrefs →
  ∀ (seen : gset string) (link_data : list link),
    (∀ u, u ∈ seen ↔ u ∈ map url link_data) →
    NoDup (map url link_data) →
    ∃ new : list link,
      extract_loop main_url max_links anchors seen link_data
      = Return (link_data ++ new)
      ∧ NoDup (map url (link_data ++ new))
      ∧ map url new `sublist_of` hrefs
      ∧ Forall (λ l, String.prefix "http" (url l) = true
                     ∧ ∃ a, a ∈ anchors
                            ∧ urljoin main_url (anchor_href a) = Return (url l)
                            ∧ l = link_of_anchor a (url l)) new
      ∧ (Z.of_nat (length link_data) + Z.of_nat (length anchors) ≤ max_links →
         ∀ href, href ∈ hrefs → String.prefix "http" href = true →
                 href ∈ map url (link_data ++ new)).
Proof.
  induction 1 as [|a href rest hrefs Ha Hrest IH]; intros seen link_data Hseen Hnd.
  { exists []. rewrite app_nil_r. simpl.
    repeat split; [done|constructor|constructor|].
    by intros _ h ?%elem_of_nil. }
  assert (Hskip :
    (String.prefix "http" href = true → href ∈ map url link_data) →
    ∃ new : list link,
      extract_loop main_url max_links rest seen link_data
      = Return (link_data ++ new)
      ∧ NoDup (map url (link_data ++ new))
      ∧ map url new `sublist_of` href :: hrefs
      ∧ Forall (λ l, String.prefix "http" (url l) = true
                     ∧ ∃ a', a' ∈ a :: rest
                             ∧ urljoin main_url (anchor_href a')
                               = Return (url l)
                             ∧ l = link_of_anchor a' (url l)) new
      ∧ (Z.of_nat (length link_data) + Z.of_nat (length (a :: rest))
         ≤ max_links →
         ∀ h, h ∈ href :: hrefs → String.prefix "http" h = true →
              h ∈ map url (link_data ++ new))).
  { intros Hhere.
    destruct (IH seen link_data Hseen Hnd)
      as (new & Heq & Hnd' & Hsub & Hall & Hcomplete).
    exists new. split; [done|]. split; [done|]. split; [by constructor|].
    split.
    - eapply Forall_impl; [exact Hall|]. intros l [Hp (a' & Ha' & Hl)].
      split; [done|]. exists a'. split; [by right|done].
    - simpl. intros Hroom h [->|Hh]%elem_of_cons Hp.
      + rewrite map_app. apply elem_of_app. left. by apply Hhere.
      + apply Hcomplete; [lia|done..]. }
  simpl. rewrite Ha.
  destruct (String.prefix "http" href) eqn:Hp;
    simpl; [|apply Hskip; discriminate].
  case_bool_decide as Hin; [apply Hskip; intros _; by apply Hseen|].
  rewrite length_app. simpl.
  fold (link_of_anchor a href).
  set (l := link_of_anchor a href).
  assert (Hfresh : url l ∉ map url link_data) by (by rewrite <- Hseen).
  assert (Hnd1 : NoDup (map url (link_data ++ [l]))).
  { rewrite map_app. apply NoDup_app. split; [done|]. split.
    - intros u Hu [->|[]%elem_of_nil]%elem_of_cons. done.
    - apply NoDup_singleton. }
  assert (Hl : String.prefix "http" (url l) = true
               ∧ ∃ a', a' ∈ a :: rest
                       ∧ urljoin main_url (anchor_href a') = Return (url l)
                       ∧ l = link_of_anchor a' (url l)).
  { split; [done|]. exists a. split; [left|done]. }
  destruct (Z.leb_spec max_links (Z.of_nat (length link_data + 1)))
    as [Hfull|Hroom].
  - exists [l]. split; [done|]. split; [done|].
    split; [apply sublist_skip, sublist_nil_l|].
    split; [constructor; [exact Hl | constructor]|].
    simpl. intros Hcap h [->|Hh]%elem_of_cons Hp'.
    + rewrite map_app. apply elem_of_app. right. left.
    + destruct rest; [|simpl in Hcap; lia].
      apply Forall2_nil_inv_l in Hrest as ->. by apply elem_of_nil in Hh.
  - destruct (IH ({[url l]} ∪ seen) (link_data ++ [l]))
      as (new & Heq & Hnd' & Hsub & Hall & Hcomplete);
      [|done|].
    { intros u. rewrite map_app, elem_of_union, elem_of_singleton, elem_of_app,
        Hseen. simpl. rewrite list_elem_of_singleton. apply or_comm. }
    exists (l :: new). rewrite <- app_assoc in Heq, Hnd', Hcomplete.
    split; [done|]. split; [done|].
    split; [by apply sublist_skip|].
    split.
    + constructor; [done|].
      eapply Forall_impl; [exact Hall|]. intros l' [Hp' (a' & Ha' & Hl')].
      split; [done|]. exists a'. split; [by right|done].
    + simpl. intros Hcap h [->|Hh]%elem_of_cons Hp'.
      * rewrite map_app. apply elem_of_app. right. left.
      * apply Hcomplete; [|done..]. rewrite length_app. simpl. lia.
Qed.

(** Whether the references resolve or not: what the loop returns is
    within the limit, and what it raises is what [urljoin] raised. *)
Lemma extract_loop_outcome (main_url : string) (max_links : Z)
  (anchors : list anchor) :
  ∀ (seen : gset string) (link_data : list link),
    match extract_loop main_url max_links anchors seen link_data with
    | Return links =>
        Z.of_nat (length links)
        ≤ Z.max (Z.of_nat (length link_data) + 1) max_links
    | Raise e =>
        ∃ a, a ∈ anchors ∧ urljoin main_url (anchor_href a) = Raise e
    end.
Proof.
  induction anchors as [|a rest IH]; intros seen link_data; simpl; [lia|].
  assert (Hrest : ∀ seen',
    match extract_loop main_url max_links rest seen' link_data with
    | Return links =>
        Z.of_nat (length links)
        ≤ Z.max (Z.of_nat (length link_data) + 1) max_links
    | Raise e =>
        ∃ a', a' ∈ a :: rest ∧ urljoin main_url (anchor_href a') = Raise e
    end).
  { intros seen'. specialize (IH seen' link_data).
    destruct (extract_loop main_url max_links rest seen' link_data); [done|].
    destruct IH as (a' & Ha' & He). exists a'. split; [by right|done]. }
  destruct (urljoin main_url (anchor_href a)) as [href|e] eqn:Ha;
    [|exists a; split; [left|done]].
  destruct (negb (String.prefix "http" href) || bool_decide (href ∈ seen));
    [apply Hrest|].
  rewrite length_app. simpl.
  destruct (Z.leb_spec max_links (Z.of_nat (length link_data + 1)));
    [rewrite length_app; simpl; lia|].
  match goal with
  | |- context [extract_loop _ _ rest ?s ?ld] => specialize (IH s ld)
  end.
  destruct (extract_loop _ _ rest _ _).
  - rewrite length_app in IH. simpl in IH. lia.
  - destruct IH as (a' & Ha' & He). exists a'. split; [by right|done].
Qed.

Lemma extract_link_contexts_eq (main_url : string) (max_links : Z) (w : world) :
  extract_link_contexts main_url max_links w
  = (match http_get (web_loads w) main_url with
     | Return text =>
         match find_anchors text with
         | Return anchors => extract_loop main_url max_links anchors ∅ []
         | Raise e => Raise e
         end
     | Raise _ => Return []
     end,
     emit (WebLoad main_url) w).
Proof.
  unfold extract_link_contexts, bind, try_except, requests_get, ret, of_result.
  destruct (http_get (web_loads w) main_url) as [text|e]; [|done].
  destruct (find_anchors text) as [anchors|e]; [|done].
  by destruct (extract_loop main_url max_links anchors ∅ []).
Qed.

(** X1: whatever the page, [extract_link_contexts] issues exactly one
    fetch; a request that fails gives the empty list; what it returns
    has at most [max_links] links, or one link when [max_links] is
    below 1 (the limit is only tested after a link has been added); and
    what it raises is what the parser raised on the page or what
    [urljoin] raised on one of its anchors, neither call being inside
    the [try]. *)
Theorem extract_link_contexts_outcome (main_url : string) (max_links : Z)
  (w : world) :
  ∃ r : result (list link),
    extract_link_contexts main_url max_links w
    = (r, emit (WebLoad main_url) w)
    ∧ (∀ e, http_get (web_loads w) main_url = Raise e → r = Return [])
    ∧ (∀ links, r = Return links →
                Z.of_nat (length links) ≤ Z.max 1 max_links)
    ∧ (∀ e, r = Raise e →
         ∃ text, http_get (web_loads w) main_url = Return text
                 ∧ (find_anchors text = Raise e
                    ∨ ∃ anchors a,
                        find_anchors text = Return anchors ∧ a ∈ anchors
                        ∧ urljoin main_url (anchor_href a) = Raise e)).
Proof.
  eexists. split; [apply extract_link_contexts_eq|].
  destruct (http_get (web_loads w) main_url) as [text|e] eqn:Hget.
  2:{ split; [done|]. split; [|done]. intros links [= <-]. simpl. lia. }
  split; [done|].
  destruct (find_anchors text) as [anchors|e] eqn:Hparse.
  2:{ split; [done|]. intros e' [= <-]. exists text. split; [done|]. by left. }
  pose proof (extract_loop_outcome main_url max_links anchors ∅ []) as Hout.
  destruct (extract_loop main_url max_links anchors ∅ []) as [links|e].
  - split; [|done]. intros links' [= <-]. simpl in Hout. lia.
  - split; [done|]. intros e' [= <-]. exists text. split; [done|].
    right. destruct Hout as (a & Ha & He). by exists anchors, a.
Qed.

(** X2: when the page is fetched and read and [urljoin] resolves the
    reference of every anchor, the extraction returns, and the links it
    returns have pairwise distinct URLs; the URLs are resolved
    references of the page, in document order, and start with ["http"];
    and the context of a link is its anchor's text, its title (empty
    when there is none) and the URL, joined by single spaces. *)
Theorem extract_link_contexts_distinct (main_url : string) (max_links : Z)
  (w : world) (text : string) (anchors : list anchor) (hrefs : list string) :
  http_get (web_loads w) main_url = Return text →
  find_anchors text = Return anchors →
  resolved main_url anchors hrefs →
  ∃ links : list link,
    fst (extract_link_contexts main_url max_links w) = Return links
    ∧ NoDup (map url links)
    ∧ map url links `sublist_of` hrefs
    ∧ Forall (λ l, String.prefix "http" (url l) = true
                   ∧ ∃ a, a ∈ anchors
                          ∧ urljoin main_url (anchor_href a) = Return (url l)
                          ∧ context l
                            = anchor_text a +:+ " "
                              +:+ default "" (anchor_title a) +:+ " "
                              +:+ url l) links.
Proof.
  intros Hget Hparse Hres. rewrite extract_link_contexts_eq, Hget, Hparse.
  simpl.
  destruct (extract_loop_spec main_url max_links anchors hrefs Hres ∅ [])
    as (new & -> & Hnd & Hsub & Hall & _).
  - intros u. simpl. rewrite elem_of_empty, elem_of_nil. done.
  - constructor.
  - exists new. simpl in *. split; [done|]. split; [done|]. split; [done|].
    eapply Forall_impl; [exact Hall|]. intros l [Hp (a & Ha & Hj & Hl)].
    split; [done|]. exists a. split; [done|]. split; [done|].
    by rewrite Hl.
Qed.

(** X3: when, besides, the page has no more anchors than [max_links],
    no link is lost: every resolved reference that starts with
    ["http"] is the URL of an extracted link. *)
Theorem extract_link_contexts_complete (main_url : string) (max_links : Z)
  (w : world) (text : string) (anchors : list anchor) (hrefs : list string) :
  http_get (web_loads w) main_url = Return text →
  find_anchors text = Return anchors →
  resolved main_url anchors hrefs →
  Z.of_nat (length anchors) ≤ max_links →
  ∃ links : list link,
    fst (extract_link_contexts main_url max_links w) = Return links
    ∧ ∀ href, href ∈ hrefs → String.prefix "http" href = true →
              href ∈ map url links.
Proof.
  intros Hget Hparse Hres Hroom.
  rewrite extract_link_contexts_eq, Hget, Hparse. simpl.
  destruct (extract_loop_spec main_url max_links anchors hrefs Hres ∅ [])
    as (new & -> & _ & _ & _ & Hcomplete).
  - intros u. simpl. rewrite elem_of_empty, elem_of_nil. done.
  - constructor.
  - exists new. split; [done|]. intros href Hh Hp.
    apply Hcomplete; [simpl; lia|done..].
Qed.

(** ** The lexical score *)

Lemma size_list_to_set_le (l : list string) :
  (size (list_to_set l : gset string) ≤ length l)%nat.
Proof.
  induction l as [|x l IH].
  - rewrite list_to_set_nil, size_empty. done.
  - rewrite list_to_set_cons, size_union_alt, size_singleton. simpl.
    pose proof (subseteq_size (list_to_set l ∖ {[x]})
                  (list_to_set l : gset string)
                  (subseteq_difference_l _ _ _ (reflexivity _))).
    lia.
Qed.

(** X4: the lexical score is symmetric in its two texts and is at
    most the number of words of either of them. *)
Theorem naive_relevance_score_symmetric_bounded (context query : string) :
  naive_relevance_score context query = naive_relevance_score query context
  ∧ (naive_relevance_score context query
     ≤ length (str_split (str_lower query)))%nat
  ∧ (naive_relevance_score context query
     ≤ length (str_split (str_lower context)))%nat.
Proof.
  unfold naive_relevance_score. split; [|split].
  - f_equal. apply intersection_comm_L.
  - etrans; [|apply size_list_to_set_le].
    apply subseteq_size, intersection_subseteq_l.
  - etrans; [|apply size_list_to_set_le].
    apply subseteq_size, intersection_subseteq_r.
Qed.

(** X5: the lexical score is zero exactly when no word of the
    lower-cased query is a word of the lower-cased context, and
    positive exactly when the two share a word. *)
Theorem naive_relevance_score_zero (context query : string) :
  (naive_relevance_score context query = 0%nat
   ↔ ∀ word, word ∈ str_split (str_lower query) →
             word ∉ str_split (str_lower context))
  ∧ ((0 < naive_relevance_score context query)%nat
     ↔ ∃ word, word ∈ str_split (str_lower query)
               ∧ word ∈ str_split (str_lower context)).
Proof.
  unfold naive_relevance_score. cbv zeta.
  set (shared := (list_to_set (str_split (str_lower query)) : gset string)
                 ∩ list_to_set (str_split (str_lower context))).
  assert (Hin : ∀ word, word ∈ shared
                        ↔ word ∈ str_split (str_lower query)
                          ∧ word ∈ str_split (str_lower context)).
  { intros word. unfold shared.
    by rewrite elem_of_intersection, !elem_of_list_to_set. }
  assert (Hzero : size shared = 0%nat
                  ↔ ∀ word, word ∈ str_split (str_lower query) →
                            word ∉ str_split (str_lower context)).
  { rewrite size_empty_iff. split.
    - intros Hempty word Hq Hc.
      assert (Hw : word ∈ shared) by (by apply Hin).
      rewrite Hempty in Hw. by apply elem_of_empty in Hw.
    - intros Hnone. apply elem_of_equiv_empty.
      intros word [Hq Hc]%Hin. by apply (Hnone word). }
  split; [exact Hzero|]. split.
  - intros Hpos. destruct (set_choose_L shared) as [word Hword].
    + intros Hempty. rewrite Hempty, size_empty in Hpos. lia.
    + exists word. by apply Hin.
  - intros (word & Hq & Hc). apply Nat.neq_0_lt_0. intros Hsize.
    by apply (proj1 Hzero Hsize word).
Qed.

(** ** More on the selection and on the ranking *)

(** X6: whatever the candidates, duplicated URLs included, the
    selection handed to the embedding stage is a sub-multiset of the
    candidate list: the backfill never takes a candidate a second
    time, and the selection never has more elements than there are
    candidates. *)
Theorem select_links_submseteq (query : string) (link_data : list link)
  (min_links : Z) :
  select_links query link_data min_links ⊆+ link_data
  ∧ (length (select_links query link_data min_links) ≤ length link_data)%nat.
Proof.
  assert (Hsub : select_links query link_data min_links ⊆+ link_data).
  { unfold select_links. rewrite backfill_eq, select_by_budget_eq.
    destruct (slice_to_take (TOTAL_EMBEDDING_BUDGET - 1)
                (lexical_order query link_data)) as [n ->].
    pose proof (lexical_order_perm query link_data) as Hperm.
    set (sorted := lexical_order query link_data) in *.
    assert (Hsplit : take n sorted ++ drop n sorted ⊆+ link_data).
    { rewrite take_drop. by apply Permutation_submseteq. }
    destruct (Z.of_nat (length (take n sorted)) <? min_links).
    - etrans; [|exact Hsplit]. apply submseteq_skips_l.
      etrans; [apply sublist_submseteq, sublist_take|].
      rewrite <- Hperm.
      replace (filter (λ l, url l ∉ map url (take n sorted)) sorted)
        with (filter (λ l, url l ∉ map url (take n sorted))
                (take n sorted ++ drop n sorted)) by (by rewrite take_drop).
      rewrite filter_app, filter_none; [apply sublist_submseteq, sublist_filter|].
      intros l Hl Hnot. apply Hnot. by apply (list_elem_of_fmap_2 url).
    - etrans; [|exact Hsplit]. apply submseteq_inserts_r. done. }
  split; [done | by apply submseteq_length].
Qed.

Lemma submseteq_map_NoDup {A B : Type} (f : A → B) (l1 l2 : list A) :
  l1 ⊆+ l2 → NoDup (map f l2) → NoDup (map f l1).
Proof.
  intros [k Hk]%submseteq_Permutation Hnd.
  change (NoDup (f <$> l2)) in Hnd. rewrite Hk, fmap_app in Hnd.
  by apply NoDup_app in Hnd as [? _].
Qed.

(** What a run of the ranker comes to: the empty list, or the URLs of
    the sorted and cut list of scored links, one scored link for each
    selected candidate. *)
Lemma rank_cases (query : string) (link_data : list link)
  (top_k min_links : Z) (w : world) :
  ∃ w', (rank_links_by_query_relevance query link_data top_k min_links w
         = (Return [], w')
         ∧ ∃ e, rank_body query link_data top_k min_links w = (Raise e, w'))
        ∨ (∃ scored,
             rank_links_by_query_relevance query link_data top_k min_links w
             = (Return (map snd (Py.slice_to top_k
                                   (Py.sort_desc tuple_lt scored))), w')
             ∧ rank_body query link_data top_k min_links w
               = (Return (map snd (Py.slice_to top_k
                                     (Py.sort_desc tuple_lt scored))), w')
             ∧ map snd scored
               = map url (select_links query link_data min_links)).
Proof.
  rewrite rank_eq, rank_body_eq.
  destruct (embed_service (embed_calls w) query) as [qe|e]; simpl;
    [|eexists; left; eauto].
  destruct (for_each _ _ _ _) as [[scored|e] w'] eqn:Hloop; simpl;
    [|eexists; left; eauto].
  apply score_links_spec in Hloop as [_ Hres].
  destruct (Hres _ eq_refl) as (new & -> & Hnew). simpl.
  exists w'. right. exists new. split; [done|]. split; [done|].
  by eapply scored_in_run_urls.
Qed.

(** X7: when the candidates have pairwise distinct URLs, so has the
    list the ranker returns: no URL is handed twice to the page
    loader. *)
Theorem rank_output_distinct (query : string) (link_data : list link)
  (top_k min_links : Z) (w : world) :
  NoDup (map url link_data) →
  ∃ urls w',
    rank_links_by_query_relevance query link_data top_k min_links w
    = (Return urls, w')
    ∧ NoDup urls.
Proof.
  intros Hnd.
  destruct (rank_cases query link_data top_k min_links w)
    as (w' & [[Heq _] | (scored & Heq & _ & Hurls)]);
    eexists _, _; (split; [exact Heq|]); [constructor|].
  destruct (slice_to_take top_k (Py.sort_desc tuple_lt scored)) as [n ->].
  eapply (submseteq_map_NoDup snd _ scored).
  - etrans; [apply sublist_submseteq, sublist_take|].
    apply Permutation_submseteq, sort_desc_perm.
  - rewrite Hurls.
    eapply submseteq_map_NoDup; [|exact Hnd].
    apply select_links_submseteq.
Qed.

(** X8: when nothing fails, the ranker returns exactly
    [min top_k n] URLs, [n] being the size of the selection (for
    [top_k ≥ 0]); [min_links] bounds the selection from below, not the
    result. *)
Theorem rank_output_length (query : string) (link_data : list link)
  (top_k min_links : Z) (w : world) (urls : list string) (w' : world) :
  0 ≤ top_k →
  rank_body query link_data top_k min_links w = (Return urls, w') →
  length urls
  = Nat.min (Z.to_nat top_k)
      (length (select_links query link_data min_links)).
Proof.
  intros Hk Hbody.
  destruct (rank_cases query link_data top_k min_links w)
    as (w'' & [[_ [e He]] | (scored & _ & Hb & Hurls)]); [congruence|].
  rewrite Hbody in Hb. injection Hb as -> _.
  rewrite slice_to_nonneg by done.
  rewrite length_map, length_take, sort_desc_length.
  by rewrite <- (length_map url), <- Hurls, length_map.
Qed.

(** ** The embedding cache across runs *)

Lemma score_links_warm (qe : embedding) (selected : list link) :
  ∀ (acc : list (score * string)) (w : world),
    Forall (λ l, warm (disk w) (url l)) selected →
    snd (for_each selected (score_link qe) acc w) = w.
Proof.
  induction selected as [|l rest IH]; intros acc w Hwarm; simpl; [done|].
  apply Forall_cons in Hwarm as [[v Hv] Hrest].
  unfold bind. rewrite (score_link_hit _ _ _ _ _ Hv).
  destruct (cosine_similarity qe v); [by apply IH | done].
Qed.

(** X9: when every selected candidate has a vector in the embedding
    cache, a ranking costs exactly one embedding call, the one for the
    query, and writes nothing. *)
Theorem rank_on_warm_cache (query : string) (link_data : list link)
  (top_k min_links : Z) (w : world) :
  Forall (λ l, warm (disk w) (url l))
    (select_links query link_data min_links) →
  snd (rank_links_by_query_relevance query link_data top_k min_links w)
  = emit (EmbedCall query) w.
Proof.
  intros Hwarm. rewrite rank_eq, rank_body_eq. simpl.
  destruct (embed_service (embed_calls w) query) as [qe|e]; [|done].
  pose proof (score_links_warm qe _ [] (emit (EmbedCall query) w) Hwarm) as Hw.
  destruct (for_each _ _ _ _) as [[scored|e] w']; simpl in *; by subst.
Qed.

Section WarmAfterRun.
Hypothesis json_roundtrip : ∀ emb, json_loads (json_dumps emb) = Some emb.
Hypothesis json_plain :
  ∀ emb, Py.contains Py.CR (json_dumps emb) = false
         ∧ Py.contains Py.LF (json_dumps emb) = false.
Hypothesis os_accepts : ∀ events call, os_fault events call = None.

Lemma can_save_embedding (u : string) (w : world) :
  disk w !! CACHE_DIR = None →
  can_save EMBEDDING_CACHE_DIR (embedding_path u) w.
Proof.
  intros Hfree. split; [|by rewrite !os_accepts].
  by repeat constructor.
Qed.

Lemma after_miss_warm (l : link) (emb : embedding) (w : world) (u : string) :
  disk w !! CACHE_DIR = None →
  disk (after_miss l emb w) !! CACHE_DIR = None
  ∧ (warm (disk w) u → warm (disk (after_miss l emb w)) u)
  ∧ warm (disk (after_miss l emb w)) (url l).
Proof.
  intros Hfree. unfold after_miss.
  rewrite EmbeddingCache_save_eq by (by apply can_save_embedding).
  unfold saved. simpl.
  assert (Hhere : ∀ u' d, embedding_path u' = embedding_path (url l) →
                    warm (<[embedding_path (url l) :=
                              Text (Py.newline_out linesep (json_dumps emb))]> d)
                      u').
  { intros u' d Hp. unfold warm, cached_embedding.
    rewrite Hp, lookup_insert_eq.
    destruct (json_plain emb) as [Hcr Hlf].
    rewrite newline_out_plain, universal_newlines_plain by done.
    rewrite json_roundtrip. eauto. }
  split; [|split; [|by apply Hhere]].
  - rewrite lookup_insert_ne by (unfold embedding_path; discriminate).
    by apply lookup_delete_None; right.
  - destruct (decide (embedding_path u = embedding_path (url l))) as [Heq|Hne];
      [intros _; by apply Hhere|].
    unfold warm, cached_embedding.
    rewrite lookup_insert_ne by done.
    rewrite lookup_delete_ne by apply cache_dir_not_embedding_path.
    done.
Qed.

Lemma score_link_leaves_warm (qe : embedding) (acc : list (score * string))
  (l : link) (w : world) (r : list (score * string)) (w' : world) :
  disk w !! CACHE_DIR = None →
  score_link qe acc l w = (Return r, w') →
  disk w' !! CACHE_DIR = None
  ∧ (∀ u, warm (disk w) u → warm (disk w') u) ∧ warm (disk w') (url l).
Proof.
  intros Hfree.
  destruct (cached_embedding (disk w) (url l)) as [v|] eqn:Hc.
  - rewrite (score_link_hit _ _ _ _ _ Hc).
    destruct (cosine_similarity qe v); intros [= <- <-].
    split; [done|]. split; [done|]. unfold warm. rewrite Hc. eauto.
  - rewrite (score_link_miss _ _ _ _ Hc).
    destruct (embed_service (embed_calls w) (context l)) as [emb|e];
      [|discriminate].
    destruct (cosine_similarity qe emb); intros [= <- <-].
    split; [apply (after_miss_warm l emb w (url l) Hfree)|].
    split; [intros u; apply (after_miss_warm l emb w u Hfree)
           | apply (after_miss_warm l emb w (url l) Hfree)].
Qed.

Lemma score_links_leave_warm (qe : embedding) (selected : list link) :
  ∀ (acc : list (score * string)) (w : world)
    (r : list (score * string)) (w' : world),
    disk w !! CACHE_DIR = None →
    for_each selected (score_link qe) acc w = (Return r, w') →
    (∀ u, warm (disk w) u → warm (disk w') u)
    ∧ Forall (λ l, warm (disk w') (url l)) selected.
Proof.
  induction selected as [|l rest IH]; intros acc w r w' Hfree; simpl.
  - intros [= <- <-]. split; [done | constructor].
  - unfold bind at 1.
    destruct (score_link qe acc l w) as [[acc1|e] w1] eqn:Hstep;
      [|discriminate].
    apply score_link_leaves_warm in Hstep as (Hfree1 & Hkeep & Hl); [|done].
    intros [Hkeep' Hrest]%IH; [|done]. split; [by auto|].
    constructor; [by apply Hkeep'|done].
Qed.

(** X10: on a file system that refuses nothing and has no regular
    file at ["cache"], after a ranking in which nothing failed every
    selected candidate has its vector in the embedding cache, so
    ranking the same candidates for the same query again costs one
    embedding call, the query's, and writes nothing, whatever the
    provider then answers. *)
Theorem rank_again_costs_one_call (query : string) (link_data : list link)
  (top_k top_k' min_links : Z) (w : world) (urls : list string) (w1 : world) :
  disk w !! CACHE_DIR = None →
  rank_body query link_data top_k min_links w = (Return urls, w1) →
  Forall (λ l, warm (disk w1) (url l)) (select_links query link_data min_links)
  ∧ snd (rank_links_by_query_relevance query link_data top_k' min_links w1)
    = emit (EmbedCall query) w1.
Proof.
  intros Hfree Hbody.
  assert (Hwarm : Forall (λ l, warm (disk w1) (url l))
                    (select_links query link_data min_links)).
  { rewrite rank_body_eq in Hbody.
    destruct (embed_service (embed_calls w) query) as [qe|e]; [|discriminate].
    destruct (for_each _ _ _ _) as [[scored|e] w'] eqn:Hloop; [|discriminate].
    injection Hbody as _ <-.
    by apply score_links_leave_warm in Hloop as [_ ?]. }
  split; [done | by apply rank_on_warm_cache].
Qed.

End WarmAfterRun.

(** ** The two caches side by side *)

(** X11: the page cache and the embedding cache share no entry, and
    start-up keeps them: saving a page changes what no embedding load
    returns, saving an embedding changes what no page load returns
    (the same URL included), and [CacheManager.initialize] changes
    neither and writes nothing. *)
Theorem caches_do_not_interfere (u u' text : string) (emb : embedding)
  (w : world) :
  cached_embedding (disk (snd (PageCache_save u text w))) u'
  = cached_embedding (disk w) u'
  ∧ cached_page (disk (snd (EmbeddingCache_save u emb w))) u'
    = cached_page (disk w) u'
  ∧ cached_page (disk (snd (CacheManager_initialize w))) u'
    = cached_page (disk w) u'
  ∧ cached_embedding (disk (snd (CacheManager_initialize w))) u'
    = cached_embedding (disk w) u'
  ∧ trace (snd (CacheManager_initialize w)) = trace w.
Proof.
  destruct (cache_dir_not_page_path u') as [Hpp Hep].
  destruct (cache_dir_not_embedding_path u') as [Hpe Hee].
  assert (Hinit : trace (snd (CacheManager_initialize w)) = trace w
                  ∧ ∀ p, p ≠ PAGE_CACHE_DIR → p ≠ EMBEDDING_CACHE_DIR →
                         disk (snd (CacheManager_initialize w)) !! p
                         = disk w !! p).
  { unfold CacheManager_initialize, bind.
    destruct (ensure_directory_exists_frame PAGE_CACHE_DIR w) as [Ht Hd].
    destruct (ensure_directory_exists PAGE_CACHE_DIR w) as [[[]|e] w1];
      simpl in *; [|by auto].
    destruct (ensure_directory_exists_frame EMBEDDING_CACHE_DIR w1)
      as [Ht' Hd'].
    split; [congruence|]. intros p Hp1 Hp2. rewrite Hd' by done. by apply Hd. }
  destruct Hinit as [Htrace Hdisk].
  destruct (PageCache_save_frame u text w) as [Hpage _].
  destruct (EmbeddingCache_save_frame u emb w) as [Hemb _].
  unfold cached_page, cached_embedding.
  split; [|split; [|split; [|split]]].
  - rewrite Hpage; [done|by apply not_eq_sym|].
    intros H. by eapply page_path_not_embedding_path.
  - rewrite Hemb; [done|by apply not_eq_sym|].
    apply page_path_not_embedding_path.
  - rewrite Hdisk; [done|by apply not_eq_sym..].
  - rewrite Hdisk; [done|by apply not_eq_sym..].
  - done.
Qed.

(** ** The page loader, one call *)

Lemma load_single_url_eq (u : string) (w : world) :
  load_single_url u w
  = match cached_page (disk w) u with
    | Some text =>
        if negb (String.eqb text "") then
          (Return (split_documents [{| page_content := text; source := u |}]), w)
        else load_from_web u w
    | None => load_from_web u w
    end.
Proof.
  unfold load_single_url, bind. rewrite PageCache_load_eq.
  destruct (cached_page (disk w) u) as [text|]; [|done].
  by destruct (negb (String.eqb text "")).
Qed.

Lemma load_from_web_spec (u : string) (w : world) :
  ∃ chunks w',
    load_from_web u w = (Return chunks, w')
    ∧ web_loads w' = S (web_loads w)
    ∧ (file_writes w ≤ file_writes w' ≤ S (file_writes w))%nat
    ∧ (∀ u', hash_url u' ≠ hash_url u →
             cached_page (disk w') u' = cached_page (disk w) u')
    ∧ (∀ u', cached_embedding (disk w') u' = cached_embedding (disk w) u')
    ∧ (∀ e, web_loader (web_loads w) u = Raise e →
            chunks = [] ∧ w' = emit (WebLoad u) w).
Proof.
  destruct (web_loader (web_loads w) u) as [docs|e] eqn:Hweb.
  - rewrite (load_from_web_ok _ _ _ Hweb). eexists _, _. split; [done|].
    destruct (PageCache_save_frame u
                (Py.join (String Py.LF (String Py.LF ""))
                   (map page_content docs)) (emit (WebLoad u) w))
      as [Hd Ht].
    simpl in Hd, Ht.
    unfold web_loads, file_writes, chain_calls, count_events,
      cached_page, cached_embedding.
    split; [destruct Ht as [Ht|Ht]; by rewrite Ht|].
    split; [destruct Ht as [Ht|Ht]; rewrite Ht; simpl; lia|].
    split; [|split; [|done]].
    + intros u' Hne. destruct (cache_dir_not_page_path u') as [Hdir _].
      rewrite Hd; [done|by apply not_eq_sym|].
      intros Hp%page_path_inj. done.
    + intros u'. destruct (cache_dir_not_embedding_path u') as [Hdir _].
      rewrite Hd; [done|by apply not_eq_sym|].
      intros H. by eapply page_path_not_embedding_path.
  - rewrite (load_from_web_fail _ _ _ Hweb). eexists _, _. split; [done|].
    split; [apply count_events_emit|].
    split; [unfold file_writes; rewrite count_events_emit; simpl; lia|].
    split; [done|]. split; [done|]. by intros e' _.
Qed.

(** X12: one call of [load_single_url] always returns; it issues at
    most one network fetch and at most one cache write, and writes
    only after a fetch; it leaves alone the cached page of every URL
    with another key and the whole embedding cache; and when the page
    is not cached and the fetch fails it returns no chunk and writes
    nothing. *)
Theorem load_single_url_isolated (u : string) (w : world) :
  ∃ chunks w',
    load_single_url u w = (Return chunks, w')
    ∧ (web_loads w ≤ web_loads w' ≤ web_loads w + 1)%nat
    ∧ (file_writes w ≤ file_writes w'
       ∧ file_writes w' + web_loads w ≤ file_writes w + web_loads w')%nat
    ∧ (∀ u', hash_url u' ≠ hash_url u →
             cached_page (disk w') u' = cached_page (disk w) u')
    ∧ (∀ u', cached_embedding (disk w') u' = cached_embedding (disk w) u')
    ∧ (∀ e, cached_page (disk w) u = None →
            web_loader (web_loads w) u = Raise e →
            chunks = [] ∧ w' = emit (WebLoad u) w).
Proof.
  assert (Hweb : load_single_url u w = load_from_web u w →
    ∃ chunks w',
      load_single_url u w = (Return chunks, w')
      ∧ (web_loads w ≤ web_loads w' ≤ web_loads w + 1)%nat
      ∧ (file_writes w ≤ file_writes w'
         ∧ file_writes w' + web_loads w ≤ file_writes w + web_loads w')%nat
      ∧ (∀ u', hash_url u' ≠ hash_url u →
               cached_page (disk w') u' = cached_page (disk w) u')
      ∧ (∀ u', cached_embedding (disk w') u' = cached_embedding (disk w) u')
      ∧ (∀ e, cached_page (disk w) u = None →
              web_loader (web_loads w) u = Raise e →
              chunks = [] ∧ w' = emit (WebLoad u) w)).
  { intros ->.
    destruct (load_from_web_spec u w)
      as (chunks & w' & Heq & Hloads & Hwrites & Hpages & Hembs & Hfail).
    exists chunks, w'. split; [done|]. split; [lia|].
    split; [|split; [done|split; [done|]]].
    - lia.
    - intros e _ He. by apply (Hfail e). }
  rewrite load_single_url_eq in *.
  destruct (cached_page (disk w) u) as [text|] eqn:Hc; [|by apply Hweb].
  destruct (negb (String.eqb text "")); [|by apply Hweb].
  eexists _, _. split; [done|]. split; [lia|]. split; [lia|].
  split; [done|]. split; [done|]. intros e [=].
Qed.

(** ** The sleeps of the retry loop *)

Lemma sleeps_retry (delay : Z) (e : exn) (query : string) (w : world) :
  sleeps (emit (retry_sleep delay e) (emit (ChainInvoke query) w))
  = S (sleeps w).
Proof. unfold sleeps. rewrite !count_events_emit. by destruct e. Qed.

Lemma safe_invoke_loop_trace (query : string) (k : nat) :
  ∀ (delay : Z) (w : world),
    ∃ new, trace (snd (safe_invoke_loop k delay query w)) = new ++ trace w
           ∧ Forall (loop_event query k delay) new
           ∧ ((sleeps (snd (safe_invoke_loop k delay query w))
               + chain_calls w + 1
               = sleeps w
                 + chain_calls (snd (safe_invoke_loop k delay query w)))%nat
              ∨ (fst (safe_invoke_loop k delay query w) = Return failed_response
                 ∧ sleeps (snd (safe_invoke_loop k delay query w))
                   = (sleeps w + k)%nat
                 ∧ chain_calls (snd (safe_invoke_loop k delay query w))
                   = (chain_calls w + k)%nat)).
Proof.
  induction k as [|k IH]; intros delay w.
  - exists []. simpl. split; [done|]. split; [constructor|].
    right. split; [done|]. lia.
  - destruct (chain_invoke (chain_calls w) query) as [r|e] eqn:He.
    { rewrite (safe_invoke_loop_success _ _ _ _ _ He). simpl.
      exists [ChainInvoke query]. split; [done|].
      split; [repeat constructor|]. left.
      rewrite chain_calls_invoke. unfold sleeps. rewrite count_events_emit.
      simpl. lia. }
    destruct (retryable e) eqn:Hr.
    + rewrite (safe_invoke_loop_retry _ _ _ _ _ He Hr).
      destruct (IH (retry_delay delay e)
                  (emit (retry_sleep delay e) (emit (ChainInvoke query) w)))
        as (new & -> & Hall & Hcount).
      rewrite sleeps_retry, chain_calls_retry in Hcount.
      exists (new ++ [retry_sleep delay e; ChainInvoke query]).
      split; [by rewrite <- app_assoc|].
      split; [|destruct Hcount as [Hc|(Hf & Hs & Hc)];
               [left; lia | right; split; [done|]; lia]].
      apply Forall_app. split.
      * eapply Forall_impl; [exact Hall|].
        intros ev [->|[->|(s & -> & Hs)]]; [by left | by right; left |].
        right; right. exists s. split; [done|]. simpl.
        destruct e; try discriminate; simpl in Hs; auto.
      * constructor; [|repeat constructor].
        destruct e; try discriminate; simpl.
        -- right; by left.
        -- right; right. exists delay. split; [done|]. by left.
    + rewrite (safe_invoke_loop_fatal _ _ _ _ _ He Hr). simpl.
      exists [ChainInvoke query]. split; [done|].
      split; [repeat constructor|]. left.
      rewrite chain_calls_invoke. unfold sleeps. rewrite count_events_emit.
      simpl. lia.
Qed.

(** X13: all that [safe_invoke] adds to the trace is invocations of
    the chain and sleeps; a sleep is of 60 seconds flat (quota) or of
    1, 2 or 4 seconds plus jitter (server error), so the back-off never
    comes near its cap of 60; and the loop sleeps after every failed
    attempt that it retries on, the last one included: it has slept one
    time less than it has invoked the chain, unless it gives up with
    the structured failure, in which case it has invoked the chain
    three times and slept three times. *)
Theorem safe_invoke_sleeps (query : string) (w : world) :
  let w' := snd (safe_invoke query w) in
  (∃ new, trace w' = new ++ trace w
          ∧ Forall (λ e, e = ChainInvoke query ∨ e = Sleep 60 false
                         ∨ e = Sleep 1 true ∨ e = Sleep 2 true
                         ∨ e = Sleep 4 true) new)
  ∧ ((sleeps w' + chain_calls w + 1 = sleeps w + chain_calls w')%nat
     ∨ (fst (safe_invoke query w) = Return failed_response
        ∧ sleeps w' = (sleeps w + 3)%nat
        ∧ chain_calls w' = (chain_calls w + 3)%nat)).
Proof.
  intros w'. unfold w', safe_invoke.
  destruct (safe_invoke_loop_trace query 3 1 w) as (new & Htrace & Hall & Hcount).
  split; [|done].
  exists new. split; [done|].
  eapply Forall_impl; [exact Hall|].
  intros e [->|[->|(s & -> & Hs)]]; [by left | by right; left |].
  right; right. simpl in Hs. unfold max_delay in Hs. simpl in Hs.
  destruct Hs as [->|[[->|[[->|[[]|[]]]|[->|[[]|[]]]]]|[->|[[->|[[]|[]]]|[->|[[]|[]]]]]]];
    auto.
Qed.

(** ** The vector store and the pipeline on one source *)

Lemma format_results_as_dict (r : response) :
  format_results (as_dict r) = (answer r, map source (context_docs r)).
Proof.
  unfold format_results, as_dict. simpl.
  destruct (context_docs r) as [|doc docs]; [done|]. simpl.
  by rewrite map_map.
Qed.

Lemma load_single_url_chain_calls (u : string) (w : world) :
  chain_calls (snd (load_single_url u w)) = chain_calls w.
Proof.
  rewrite load_single_url_eq.
  assert (Hweb : chain_calls (snd (load_from_web u w)) = chain_calls w).
  { destruct (web_loader (web_loads w) u) as [docs|e] eqn:Hw.
    - rewrite (load_from_web_ok _ _ _ Hw).
      destruct (PageCache_save_frame u
                  (Py.join (String Py.LF (String Py.LF ""))
                     (map page_content docs)) (emit (WebLoad u) w))
        as [_ [Ht|Ht]];
        unfold chain_calls, count_events; simpl in *; by rewrite Ht.
    - by rewrite (load_from_web_fail _ _ _ Hw). }
  destruct (cached_page (disk w) u) as [text|]; [|done].
  by destruct (negb (String.eqb text "")).
Qed.

(** X15: when the source yields no chunk (its fetch failed, say),
    the pipeline does not answer: building the chain raises "Vector
    store not initialized", and the language model is never invoked. *)
Theorem pipeline_raises_without_chunks (query source : string) (w : world) :
  fst (load_single_url source w) = Return [] →
  run_rag_pipeline_source query source w
  = (Raise not_initialized, snd (load_single_url source w))
  ∧ chain_calls (snd (load_single_url source w)) = chain_calls w.
Proof.
  intros Hload. split; [|apply load_single_url_chain_calls].
  unfold run_rag_pipeline_source, read_clock, build_from_documents,
    RAGChain_init, as_retriever, try_except, ret, raise.
  repeat (progress (unfold bind; cbv beta iota)).
  destruct (load_single_url source w) as [r w1]. simpl in Hload. by subst.
Qed.

(** X16: when the source yields chunks and FAISS builds its index, the
    pipeline returns: the answer and the sources are those of the
    result of [safe_invoke], one source per context document, after one
    to three invocations of the chain; a chain error outside the
    retried classes comes back as the answer "An error occurred: ..."
    with no source, not as an exception. *)
Theorem pipeline_returns_with_chunks (query src : string) (w w1 w2 : world)
  (docs : list Document) (built : faiss_index) :
  load_single_url src w = (Return docs, w1) →
  docs ≠ [] →
  FAISS_from_documents docs w1 = (Return built, w2) →
  ∃ (r : response) (w3 : world),
    safe_invoke query w2 = (Return r, w3)
    ∧ run_rag_pipeline_source query src w
      = (Return (answer r, map source (context_docs r),
                 seconds_sub (time_time (trace w3)) (time_time (trace w))),
         w3)
    ∧ (chain_calls w2 + 1 ≤ chain_calls w3 ≤ chain_calls w2 + 3)%nat
    ∧ (∀ e, chain_invoke (chain_calls w2) query = Raise e →
            retryable e = false →
            answer r = "An error occurred: " +:+ exn_str e
            ∧ context_docs r = []).
Proof.
  intros Hload Hdocs Hfaiss.
  destruct (safe_invoke_loop_returns query 3 1 w2)
    as (r & w3 & Hinvoke & Hle & Hge).
  exists r, w3. split; [done|]. split; [|split; [lia|]].
  - unfold run_rag_pipeline_source, read_clock, build_from_documents,
      RAGChain_init, as_retriever, try_except, ret, raise.
    repeat (progress (unfold bind; cbv beta iota)).
    rewrite Hload. cbv beta iota. destruct docs as [|doc docs]; [done|].
    rewrite Hfaiss. cbv beta iota. unfold db. cbv beta iota.
    unfold invoke, safe_invoke. rewrite Hinvoke. cbv beta iota.
    rewrite format_results_as_dict. reflexivity.
  - intros e He Hr. unfold safe_invoke in Hinvoke.
    rewrite (safe_invoke_loop_fatal _ _ _ _ _ He Hr) in Hinvoke.
    by injection Hinvoke as <- _.
Qed.

(** ** Gathering and ranking the links of the main pages *)

Lemma extract_well_formed (main_url : string) (max_links : Z) (w : world) :
  well_formed (web_loads w) main_url →
  ∃ links,
    extract_link_contexts main_url max_links w
    = (Return links, emit (WebLoad main_url) w)
    ∧ Forall (λ l, String.prefix "http" (url l) = true) links.
Proof.
  unfold well_formed. intros Hpage. rewrite extract_link_contexts_eq.
  destruct (http_get (web_loads w) main_url) as [text|e];
    [|by exists []].
  destruct Hpage as (anchors & hrefs & -> & Hres).
  destruct (extract_loop_spec main_url max_links anchors hrefs Hres ∅ [])
    as (new & -> & _ & _ & Hall & _).
  - intros u. simpl. rewrite elem_of_empty, elem_of_nil. done.
  - constructor.
  - exists new. split; [done|].
    eapply Forall_impl; [exact Hall|]. by intros l [? _].
Qed.

Lemma gather_links_spec (w : world) :
  well_formed (web_loads w) "https://handbook.gitlab.com/handbook/" →
  well_formed (S (web_loads w)) "https://about.gitlab.com/direction/" →
  ∃ links,
    gather_links w
    = (Return links,
       emit (WebLoad "https://about.gitlab.com/direction/")
         (emit (WebLoad "https://handbook.gitlab.com/handbook/") w))
    ∧ Forall (λ l, String.prefix "http" (url l) = true) links.
Proof.
  intros Hfirst Hsecond.
  destruct (extract_well_formed "https://handbook.gitlab.com/handbook/"
              MAX_LINKS_PER_SITE w Hfirst) as (links1 & Heq1 & Hhttp1).
  destruct (extract_well_formed "https://about.gitlab.com/direction/"
              MAX_LINKS_PER_SITE
              (emit (WebLoad "https://handbook.gitlab.com/handbook/") w))
    as (links2 & Heq2 & Hhttp2).
  { unfold web_loads. by rewrite count_events_emit. }
  unfold gather_links, MAIN_URLS. simpl. unfold ret.
  repeat (progress (unfold bind; cbv beta iota; rewrite ?Heq1, ?Heq2)).
  eexists. split; [reflexivity|].
  apply Forall_app. split; [exact Hhttp1 | exact Hhttp2].
Qed.

Lemma rank_urls_are_candidates (query : string) (link_data : list link)
  (top_k min_links : Z) (w : world) (urls : list string) (w' : world) :
  rank_links_by_query_relevance query link_data top_k min_links w
  = (Return urls, w') →
  ∀ u, u ∈ urls → ∃ l, l ∈ link_data ∧ url l = u.
Proof.
  intros Hrank u Hu.
  destruct (rank_cases query link_data top_k min_links w)
    as (w'' & [[Heq _] | (scored & Heq & _ & Hurls)]);
    rewrite Heq in Hrank; injection Hrank as <- _.
  - by apply elem_of_nil in Hu.
  - apply (list_elem_of_fmap_1 snd) in Hu as (p & -> & Hp).
    apply slice_to_subseteq in Hp. rewrite sort_desc_perm in Hp.
    apply (list_elem_of_fmap_2 snd) in Hp.
    change (p.2 ∈ map snd scored) in Hp. rewrite Hurls in Hp.
    apply (list_elem_of_fmap_1 url) in Hp as (l & Hl & Hin).
    exists l. split; [by eapply select_links_subseteq|done].
Qed.

(** X17: the first two steps of the pipeline, run on the main pages,
    when each of the two pages is either out of reach or read by the
    parser with references that all resolve: the two pages are
    fetched, one after the other; the ranking that follows never raises
    and hands on at most 20 URLs, each of them starting with ["http"]
    and extracted from one of the two pages; and with the configured
    budget of 30 it issues at most 30 embedding calls, the default
    [min_links] of 10 being below the budget. *)
Theorem rank_main_pages_bounds (query : string) (w : world) :
  well_formed (web_loads w) "https://handbook.gitlab.com/handbook/" →
  well_formed (S (web_loads w)) "https://about.gitlab.com/direction/" →
  ∃ links urls w',
    gather_links w
    = (Return links,
       emit (WebLoad "https://about.gitlab.com/direction/")
         (emit (WebLoad "https://handbook.gitlab.com/handbook/") w))
    ∧ rank_main_pages query w = (Return urls, w')
    ∧ Z.of_nat (length urls) ≤ 20
    ∧ (∀ u, u ∈ urls → String.prefix "http" u = true ∧ u ∈ map url links)
    ∧ (TOTAL_EMBEDDING_BUDGET = 30 →
       (embed_calls w + 1 ≤ embed_calls w' ≤ embed_calls w + 30)%nat).
Proof.
  intros Hfirst Hsecond.
  destruct (gather_links_spec w Hfirst Hsecond) as (links & Hgather & Hhttp).
  set (wg := emit (WebLoad "https://about.gitlab.com/direction/")
               (emit (WebLoad "https://handbook.gitlab.com/handbook/") w))
    in *.
  destruct (rank_cases query links TOP_K_LINKS 10 wg)
    as (w' & Hcases).
  assert (Hrank : ∃ urls,
             rank_links_by_query_relevance query links TOP_K_LINKS 10 wg
             = (Return urls, w')
             ∧ Z.of_nat (length urls) ≤ 20).
  { destruct Hcases as [[Heq _] | (scored & Heq & _ & _)];
      eexists; (split; [exact Heq|]); [simpl; lia|].
    rewrite length_map. by apply (slice_to_length 20). }
  destruct Hrank as (urls & Hrank & Hlen).
  exists links, urls, w'. split; [done|]. split.
  { unfold rank_main_pages, bind. by rewrite Hgather. }
  split; [done|]. split.
  - intros u Hu.
    destruct (rank_urls_are_candidates _ _ _ _ _ _ _ Hrank u Hu)
      as (l & Hl & <-).
    split; [by eapply Forall_forall in Hhttp | by apply (list_elem_of_fmap_2 url)].
  - intros HB.
    pose proof (rank_body_calls query links TOP_K_LINKS 10 wg) as Hcalls.
    simpl in Hcalls. rewrite rank_eq in Hrank. injection Hrank as _ Hw'.
    rewrite Hw' in Hcalls.
    pose proof (backfill_length 10 links (select_by_budget query links))
      as Hfill.
    pose proof (select_by_budget_length query links ltac:(lia)) as Hsel.
    fold (select_links query links 10) in Hfill.
    assert (Hg : embed_calls wg = embed_calls w).
    { unfold wg, embed_calls. by rewrite !count_events_emit. }
    rewrite Hg in Hcalls. lia.
Qed.

(** X20: nothing catches what the parser or [urljoin] raises on a
    main page: when the extraction of the first page raises, the
    ranking step raises the same exception after this one fetch, and
    the second page is never fetched; when the extraction of the second
    page raises, it raises after the two fetches; either way, no
    embedding call is issued. *)
Theorem rank_main_pages_raises (query : string) (w : world) :
  let first := "https://handbook.gitlab.com/handbook/" in
  let second := "https://about.gitlab.com/direction/" in
  (∀ e, fst (extract_link_contexts first MAX_LINKS_PER_SITE w) = Raise e →
        rank_main_pages query w = (Raise e, emit (WebLoad first) w)
        ∧ embed_calls (emit (WebLoad first) w) = embed_calls w)
  ∧ (∀ links e,
       fst (extract_link_contexts first MAX_LINKS_PER_SITE w) = Return links →
       fst (extract_link_contexts second MAX_LINKS_PER_SITE
              (emit (WebLoad first) w)) = Raise e →
       rank_main_pages query w
       = (Raise e, emit (WebLoad second) (emit (WebLoad first) w))
       ∧ embed_calls (emit (WebLoad second) (emit (WebLoad first) w))
         = embed_calls w).
Proof.
  intros first second.
  assert (Hcalls : ∀ u w0, embed_calls (emit (WebLoad u) w0) = embed_calls w0).
  { intros u w0. unfold embed_calls. by rewrite count_events_emit. }
  assert (Hworld : ∀ u w0,
             snd (extract_link_contexts u MAX_LINKS_PER_SITE w0)
             = emit (WebLoad u) w0).
  { intros u w0. by rewrite extract_link_contexts_eq. }
  pose proof (Hworld first w) as Hw1.
  pose proof (Hworld second (emit (WebLoad first) w)) as Hw2.
  unfold rank_main_pages, gather_links, MAIN_URLS. simpl.
  fold first second.
  repeat (progress (unfold bind; cbv beta iota)).
  destruct (extract_link_contexts first MAX_LINKS_PER_SITE w) as [r1 w1].
  simpl in Hw1. subst w1. split.
  - intros e He. simpl in He. subst r1. split; [done | apply Hcalls].
  - intros links e Hlinks He. simpl in Hlinks. subst r1.
    unfold ret. cbv beta iota.
    destruct (extract_link_contexts second MAX_LINKS_PER_SITE
                (emit (WebLoad first) w)) as [r2 w2].
    simpl in Hw2, He. subst w2 r2. split; [done | by rewrite !Hcalls].
Qed.

(** ** What the budget cut keeps *)

Lemma lexical_order_sorted (query : string) (link_data : list link) :
  StronglySorted
    (λ a b, (lexical_score query b ≤ lexical_score query a)%nat)
    (lexical_order query link_data).
Proof.
  unfold lexical_order.
  eapply StronglySorted_weaken; [|apply sort_desc_sorted].
  - intros a b Hab. apply Nat.ltb_ge in Hab. exact Hab.
  - intros a b Hab%Nat.ltb_lt. apply Nat.ltb_ge. lia.
  - intros a b c Hab%Nat.ltb_ge Hbc%Nat.ltb_ge. apply Nat.ltb_ge. lia.
Qed.

(** X18: for a budget of at least 1, the budget cut splits the
    candidates in two: the selection and the rest, and no candidate of
    the rest has a higher lexical score than a selected one. *)
Theorem budget_cut_keeps_best (query : string) (link_data : list link) :
  1 ≤ TOTAL_EMBEDDING_BUDGET →
  ∃ rest : list link,
    select_by_budget query link_data ++ rest ≡ₚ link_data
    ∧ ∀ a b, a ∈ select_by_budget query link_data → b ∈ rest →
             (lexical_score query b ≤ lexical_score query a)%nat.
Proof.
  intros HB. rewrite select_by_budget_eq, slice_to_nonneg by lia.
  set (n := Z.to_nat (TOTAL_EMBEDDING_BUDGET - 1)).
  exists (drop n (lexical_order query link_data)).
  split; [by rewrite take_drop, lexical_order_perm|].
  apply StronglySorted_app_order. rewrite take_drop.
  apply lexical_order_sorted.
Qed.

(** X19: when all candidates have the same lexical score (none of
    them shares a word with the query, say), the keyword sort changes
    nothing, and the selection is the first [B - 1] candidates in the
    order they were extracted in. *)
Theorem budget_cut_on_equal_scores (query : string) (link_data : list link)
  (k : nat) :
  1 ≤ TOTAL_EMBEDDING_BUDGET →
  Forall (λ l, lexical_score query l = k) link_data →
  select_by_budget query link_data
  = take (Z.to_nat (TOTAL_EMBEDDING_BUDGET - 1)) link_data.
Proof.
  intros HB Hall. rewrite select_by_budget_eq, slice_to_nonneg by lia.
  f_equal.
  rewrite <- (filter_all (λ l, lexical_score query l = k)
                (lexical_order query link_data)).
  - unfold lexical_order. rewrite sort_desc_filter.
    + apply filter_all. by apply Forall_forall.
    + intros a b -> <-. apply Nat.ltb_irrefl.
  - intros l Hl. rewrite lexical_order_perm in Hl.
    by eapply Forall_forall in Hall.
Qed.

End Rest.

End Model.

(** * Concrete scenarios

    A small environment to run the model in: paths keyed by the
    identity itself, LF line ends, a file system that refuses nothing,
    texts of ASCII characters, a provider that answers with one of two
    unit vectors, whose cosine similarity is 1 or 0, and the budget,
    [top_k] and [min_links] of [config.py] and of the default
    arguments. *)

Module Scenario.

Definition digest (s : string) : string := s.
Definition posix : string := String Py.LF "".

(** An operating system that refuses no call, and one on which the
    cache files cannot be opened for writing. *)
Definition healthy (events : list event) (call : fs_call) : option exn := None.

Definition read_only (events : list event) (call : fs_call) : option exn :=
  match call with
  | OpenWrite _ => Some (OtherException "PermissionError")
  | _ => None
  end.

(** What [str.lower()] and [str.split()] do on a text of ASCII
    characters, which is all the scenarios use: the letters A to Z are
    lowered, and the words are the maximal runs of characters other
    than tab, line feed, vertical tab, form feed, carriage return, the
    separators 28 to 31 and the space. *)
Definition ascii_lower_char (c : ascii) : ascii :=
  let n := nat_of_ascii c in
  if ((65 <=? n) && (n <=? 90))%nat then ascii_of_nat (n + 32) else c.

Fixpoint ascii_lower (s : string) : string :=
  match s with
  | EmptyString => EmptyString
  | String c s' => String (ascii_lower_char c) (ascii_lower s')
  end.

Definition ascii_isspace (c : ascii) : bool :=
  let n := nat_of_ascii c in
  (((9 <=? n) && (n <=? 13)) || ((28 <=? n) && (n <=? 32)))%nat.

(** [word] is the run read so far. *)
Fixpoint ascii_split_from (word : string) (s : string) : list string :=
  match s with
  | EmptyString => if String.eqb word "" then [] else [word]
  | String c s' =>
      if ascii_isspace c then
        if String.eqb word "" then ascii_split_from "" s'
        else word :: ascii_split_from "" s'
      else ascii_split_from (word +:+ String c "") s'
  end.

Definition ascii_split (s : string) : list string := ascii_split_from "" s.

Inductive vec : Type := East | North.

Definition dumps (v : vec) : string :=
  match v with East => "[1.0, 0.0]" | North => "[0.0, 1.0]" end.

Definition loads (s : string) : option vec :=
  if String.eqb s "[1.0, 0.0]" then Some East
  else if String.eqb s "[0.0, 1.0]" then Some North
  else None.

Definition cosine (a b : vec) : result Z :=
  Return match a, b with
         | East, East | North, North => 1
         | _, _ => 0
         end.

Definition fresh : world := {| disk := ∅; trace := [] |}.

(** A regular file stands where the cache directory should be. *)
Definition occupied : world :=
  {| disk := {[ "cache" := Text "" ]}; trace := [] |}.

(** Providers: one that always answers, one that rejects the key, one
    whose second call fails on the server side while every other call,
    a repeated one included, would answer, and one whose third call
    runs into the quota. *)
Definition steady (n : nat) (text : string) : result vec := Return East.

Definition denied (n : nat) (text : string) : result vec :=
  Raise (Unauthorized "401 API key not valid").

Definition flaky (n : nat) (text : string) : result vec :=
  if (n =? 1)%nat then Raise (InternalServerError "500 internal error")
  else Return East.

Definition hiccup (n : nat) (text : string) : result vec :=
  if (n =? 2)%nat then Raise (ResourceExhausted "429 quota exceeded")
  else Return East.

Definition rank (service : nat → string → result vec) (budget : Z)
  : string → list link → Z → Z → M (list string) :=
  rank_links_by_query_relevance digest posix healthy vec dumps loads
    ascii_lower ascii_split Z Z.ltb cosine service budget.

Definition link_a : link :=
  {| url := "https://handbook.gitlab.com/a"; context := "Benefits a" |}.
Definition link_b : link :=
  {| url := "https://handbook.gitlab.com/b"; context := "Benefits b" |}.
Definition link_c : link :=
  {| url := "https://handbook.gitlab.com/c"; context := "Hiring c" |}.

(** Thirty candidates, every third one mentioning the query word. *)
Definition numbered_link (i : nat) : link :=
  {| url := "https://handbook.gitlab.com/" +:+ pretty i;
     context := if (i mod 3 =? 0)%nat then "Benefits page " +:+ pretty i
                else "Page " +:+ pretty i |}.

Definition thirty_links : list link := map numbered_link (seq 0 30).

(** The web: a page that loads, and a host that is down. *)
Definition page : Document :=
  {| page_content := "Total rewards"; source := "https://handbook.gitlab.com/a" |}.

Definition web_up (n : nat) (u : string) : result (list Document) :=
  Return [page].

Definition web_down (n : nat) (u : string) : result (list Document) :=
  Raise (OtherException "ConnectionError").

Definition web_blank (n : nat) (u : string) : result (list Document) :=
  Return [{| page_content := ""; source := u |}].

Definition chunks (docs : list Document) : list Document := docs.

Definition load (web : nat → string → result (list Document))
  : string → M (list Document) :=
  load_single_url digest posix healthy web chunks.

(** The chain: two server-side failures, then an answer. *)
Definition reply : response := {| answer := "42"; context_docs := [page] |}.

Definition chain (n : nat) (query : string) : result response :=
  if (n <? 2)%nat then Raise (InternalServerError "500 internal error")
  else Return reply.

Lemma Z_ltb_asym (a b : Z) : (a <? b) = true → (b <? a) = false.
Proof. intros H%Z.ltb_lt. apply Z.ltb_ge. lia. Qed.

Lemma Z_ltb_negtrans (a b c : Z) :
  (a <? b) = false → (b <? c) = false → (a <? c) = false.
Proof. intros H1%Z.ltb_ge H2%Z.ltb_ge. apply Z.ltb_ge. lia. Qed.

Lemma dumps_loads (v : vec) : loads (dumps v) = Some v.
Proof. by destruct v. Qed.

Lemma dumps_plain (v : vec) :
  Py.contains Py.CR (dumps v) = false ∧ Py.contains Py.LF (dumps v) = false.
Proof. by destruct v. Qed.

Example slice_to_negative : Py.slice_to (-1) [1; 2; 3] = [1; 2].
Proof. reflexivity. Qed.

Example sort_desc_is_stable :
  Py.sort_desc (λ x y : Z * string, fst x <? fst y)
    [(1, "a"); (2, "b"); (1, "c"); (2, "d")]
  = [(2, "b"); (2, "d"); (1, "a"); (1, "c")].
Proof. reflexivity. Qed.

Example score_counts_shared_words :
  naive_relevance_score ascii_lower ascii_split
    "Total Rewards benefits page" "What BENEFITS page" = 2%nat.
Proof. by vm_compute. Qed.

Example two_links_cost_three_calls :
  embed_calls (snd (rank steady 2 "benefits" [link_a; link_b] 20 2 fresh)) = 3%nat.
Proof. by vm_compute. Qed.

(** A budget below 1 makes [max_docs] negative, and the slice then
    drops candidates from the end instead of keeping none. *)
Example budget_zero_keeps_all_but_last :
  select_by_budget ascii_lower ascii_split 0 "benefits" [link_a; link_b; link_c] = [link_a; link_b]
  ∧ embed_calls (snd (rank steady 0 "benefits" [link_a; link_b; link_c]
                        20 0 fresh)) = 3%nat.
Proof. split; by vm_compute. Qed.

(** A page whose text is empty is written to the cache, but the empty
    string fails the test [if cached:], so the next call fetches and
    writes it again. *)
Example empty_page_is_fetched_again :
  let first := load web_blank (url link_a) fresh in
  let second := load web_blank (url link_a)
                  (snd first) in
  web_loads (snd second) = 2%nat ∧ file_writes (snd second) = 2%nat.
Proof. split; by vm_compute. Qed.

(** C1, counterexample: the scenario of the specification itself.
    Thirty candidates, a budget of 10 and [min_links = 10]: the budget
    selects nine candidates, the backfill adds a tenth, and the ranker
    issues eleven embedding calls, one more than the budget. *)
Lemma rank_exceeds_budget :
  length (select_by_budget ascii_lower ascii_split 10 "benefits" thirty_links) = 9%nat
  ∧ length (select_links ascii_lower ascii_split 10 "benefits" thirty_links 10) = 10%nat
  ∧ embed_calls (snd (rank steady 10 "benefits" thirty_links 5 10 fresh))
    = 11%nat
  ∧ ¬ (Z.of_nat (embed_calls
                   (snd (rank steady 10 "benefits" thirty_links 5 10 fresh)))
       ≤ 10).
Proof.
  assert (H : embed_calls
                (snd (rank steady 10 "benefits" thirty_links 5 10 fresh))
              = 11%nat) by (by vm_compute).
  rewrite H. split; [by vm_compute|]. split; [by vm_compute|].
  split; [reflexivity | lia].
Qed.

Lemma rank_embedding_calls_bound_witness :
  Z.of_nat (embed_calls (snd (rank steady 30 "benefits"
                                [link_a; link_b; link_c] 20 10 fresh))
            - embed_calls fresh)
  ≤ 30.
Proof.
  apply (rank_embedding_calls_bound digest posix healthy vec dumps loads
           ascii_lower ascii_split Z Z.ltb
           cosine steady 30 "benefits" [link_a; link_b; link_c] 20 10 fresh);
    lia.
Defined.

(** C2, counterexample: on the empty candidate list the ranker does
    return the empty list, but it has embedded the query: one call, not
    none. *)
Lemma rank_empty_embeds_query :
  rank steady 30 "benefits" [] 20 10 fresh
  = (Return [], emit (EmbedCall "benefits") fresh)
  ∧ ¬ (embed_calls (snd (rank steady 30 "benefits" [] 20 10 fresh)) = 0%nat).
Proof. split; [reflexivity | discriminate]. Qed.

(** C3, counterexample: two candidates of equal lexical score and equal
    similarity, [link_a] ahead of [link_b] in the lexical order, come
    out with [link_b] first: the tie goes to the greater URL. *)
Lemma rank_ties_by_url_not_lexical :
  select_links ascii_lower ascii_split 30 "benefits" [link_a; link_b] 10 = [link_a; link_b]
  ∧ fst (for_each [link_a; link_b]
           (score_link digest posix healthy vec dumps loads Z cosine steady East) []
           (emit (EmbedCall "benefits") fresh))
    = Return [(1, url link_a); (1, url link_b)]
  ∧ spec_ranking Z Z.ltb [(1, url link_a); (1, url link_b)] 20
    = [url link_a; url link_b]
  ∧ fst (rank steady 30 "benefits" [link_a; link_b] 20 10 fresh)
    = Return [url link_b; url link_a]
  ∧ fst (rank steady 30 "benefits" [link_a; link_b] 20 10 fresh)
    ≠ Return (spec_ranking Z Z.ltb [(1, url link_a); (1, url link_b)] 20).
Proof.
  split; [by vm_compute|]. split; [by vm_compute|]. split; [by vm_compute|].
  split; [by vm_compute|]. by vm_compute.
Qed.

Lemma rank_output_order_witness :
  ∃ ranked w',
    rank steady 30 "benefits" [link_a; link_b; link_c] 20 10 fresh
    = (Return (map snd ranked), w')
    ∧ StronglySorted (ranked_before Z Z.ltb) ranked.
Proof.
  destruct (rank_output_order digest posix healthy vec dumps loads
              ascii_lower ascii_split Z Z.ltb cosine
              steady 30 "benefits" [link_a; link_b; link_c] 20 10 fresh
              Z_ltb_asym Z_ltb_negtrans)
    as (ranked & w' & Heq & _ & _ & Hsorted & _).
  exists ranked, w'. split; [exact Heq | exact Hsorted].
Defined.

Lemma selection_is_prefix_of_stable_order_witness :
  ∃ sorted,
    select_by_budget ascii_lower ascii_split 30 "benefits" [link_c; link_a; link_b]
    = take 29 sorted
    ∧ sorted ≡ₚ [link_c; link_a; link_b].
Proof.
  destruct (selection_is_prefix_of_stable_order ascii_lower ascii_split 30 "benefits"
              [link_c; link_a; link_b] ltac:(lia))
    as (sorted & Hsel & Hperm & _).
  exists sorted. split; [exact Hsel | exact Hperm].
Defined.

Lemma backfill_reaches_min_links_witness :
  Z.min 2 3 ≤ Z.of_nat (length (select_links ascii_lower ascii_split 2 "benefits"
                                  [link_c; link_a; link_b] 2)).
Proof.
  refine (proj2 (proj2 (backfill_reaches_min_links ascii_lower ascii_split 2 "benefits"
                          [link_c; link_a; link_b] 2 _))).
  apply (bool_decide_unpack _). vm_compute. exact I.
Defined.

Lemma rank_never_raises_witness :
  fst (rank denied 30 "benefits" [link_a; link_b] 20 10 fresh) = Return [].
Proof.
  destruct (rank_never_raises digest posix healthy vec dumps loads
              ascii_lower ascii_split Z Z.ltb cosine
              denied 30 "benefits" [link_a; link_b] 20 10 fresh)
    as (urls & w' & Heq & Hquery & _).
  unfold rank. rewrite Heq. simpl.
  rewrite (Hquery (Unauthorized "401 API key not valid") eq_refl).
  reflexivity.
Defined.

(** C7, counterexample: page text with a carriage return does not come
    back as it was saved; the read turns the CR into LF. *)
Lemma page_roundtrip_loses_carriage_return :
  let text := String "a" (String Py.CR "b") in
  let w' := snd (PageCache_save digest posix healthy (url link_a) text fresh) in
  fst (PageCache_load digest (url link_a) w')
  = Return (Some (String "a" (String Py.LF "b")))
  ∧ fst (PageCache_load digest (url link_a) w') ≠ Return (Some text).
Proof. split; [by vm_compute | by vm_compute]. Qed.

Lemma cache_save_load_roundtrip_witness :
  (let w' := snd (PageCache_save digest posix healthy (url link_a) "Total rewards" fresh) in
   PageCache_load digest (url link_a) w' = (Return (Some "Total rewards"), w'))
  ∧ (let w' := snd (EmbeddingCache_save digest posix healthy vec dumps
                      (url link_a) North fresh) in
     EmbeddingCache_load digest vec loads (url link_a) w'
     = (Return (Some North), w')).
Proof.
  destruct (cache_save_load_roundtrip digest posix healthy vec dumps loads
              (or_introl eq_refl) dumps_loads dumps_plain)
    as (Hpage & Hemb & _).
  split.
  - apply (Hpage (url link_a) "Total rewards" fresh); [|reflexivity].
    split; [by repeat constructor | by repeat split].
  - apply (Hemb (url link_a) North fresh).
    split; [by repeat constructor | by repeat split].
Defined.

(** With a regular file at ["cache"], the directory of the page cache
    cannot be made: the save returns, nothing is stored, and the load
    that follows finds nothing. *)
Example blocked_save_stores_nothing :
  PageCache_save digest posix healthy (url link_a) "Total rewards" occupied
  = (Return (), occupied)
  ∧ PageCache_load digest (url link_a) occupied = (Return None, occupied).
Proof. split; by vm_compute. Qed.

(** C8, counterexample: when the host is down, two calls issue two
    network fetches and no cache write. *)
Lemma load_single_url_refetches_after_failure :
  let first := load web_down (url link_a) fresh in
  let second := load web_down (url link_a)
                  (snd first) in
  fst first = Return [] ∧ fst second = Return []
  ∧ web_loads (snd second) = 2%nat ∧ file_writes (snd second) = 0%nat
  ∧ ¬ (web_loads (snd second) = 1%nat ∧ file_writes (snd second) = 1%nat).
Proof.
  repeat split; try reflexivity. intros [H _]. discriminate H.
Qed.

Lemma load_single_url_twice_witness :
  ∃ w1 cached_text,
    load web_up (url link_a) fresh = (Return [page], w1)
    ∧ web_loads w1 = 1%nat ∧ file_writes w1 = 1%nat
    ∧ load web_up (url link_a) w1
      = (Return [{| page_content := cached_text; source := url link_a |}], w1).
Proof.
  destruct (load_single_url_twice digest posix healthy web_up chunks
              (url link_a) fresh [page])
    as [Hsaved _];
    [discriminate | reflexivity | reflexivity | discriminate |].
  destruct Hsaved as (w1 & cached_text & H1 & Hweb & Hwrite & _ & H2).
  { split; [by repeat constructor | by repeat split]. }
  exists w1, cached_text. repeat split; assumption.
Defined.

(** With a regular file at ["cache"], or on a disk that cannot be
    written, the page is not stored, and two calls issue two fetches
    and no write. *)
Example blocked_cache_is_fetched_again :
  let second := load web_up (url link_a)
                  (snd (load web_up (url link_a) occupied)) in
  fst second = Return [page]
  ∧ web_loads (snd second) = 2%nat ∧ file_writes (snd second) = 0%nat.
Proof. repeat split; by vm_compute. Qed.

Example read_only_cache_is_fetched_again :
  let first := load_single_url digest posix read_only web_up chunks
                 (url link_a) fresh in
  let second := load_single_url digest posix read_only web_up chunks
                  (url link_a) (snd first) in
  fst second = Return [page]
  ∧ web_loads (snd second) = 2%nat ∧ file_writes (snd second) = 0%nat.
Proof. repeat split; by vm_compute. Qed.

Lemma safe_invoke_attempts_witness :
  ∃ w', safe_invoke chain "What are the benefits?" fresh = (Return reply, w')
        ∧ chain_calls w' = 3%nat.
Proof.
  destruct (safe_invoke_attempts chain "What are the benefits?" fresh)
    as (_ & Hretry & _).
  destruct (Hretry "500 internal error" "500 internal error" reply
              eq_refl eq_refl eq_refl) as (w' & Heq & Hcalls & _).
  exists w'. split; [exact Heq | exact Hcalls].
Defined.

(** C10, counterexample: the provider fails once, on the server side,
    on the first document; a second attempt would be answered.  The
    ranker does not make it: it returns the empty list after the two
    calls, instead of the ranking of the one candidate. *)
Lemma rank_gives_up_on_transient_failure :
  flaky 2 (context link_a) = Return East
  ∧ rank flaky 30 "benefits" [link_a] 20 10 fresh
    = (Return [],
       emit (EmbedCall (context link_a)) (emit (EmbedCall "benefits") fresh))
  ∧ embed_calls (snd (rank flaky 30 "benefits" [link_a] 20 10 fresh)) = 2%nat
  ∧ fst (rank flaky 30 "benefits" [link_a] 20 10 fresh)
    ≠ Return [url link_a].
Proof.
  split; [reflexivity|]. split; [by vm_compute|]. split; [by vm_compute|].
  by vm_compute.
Qed.

(** The world in which the turn of [link_b] starts, when [link_a] and
    [link_b] are ranked from scratch. *)
Definition after_first_turn : world :=
  snd (for_each [link_a]
         (score_link digest posix healthy vec dumps loads Z cosine hiccup East)
         [] (emit (EmbedCall "benefits") fresh)).

Lemma document_embedding_single_attempt_witness :
  hiccup 3 (context link_b) = Return East
  ∧ rank hiccup 30 "benefits" [link_a; link_b] 20 10 fresh
    = (Return [], emit (EmbedCall (context link_b)) after_first_turn).
Proof.
  split; [reflexivity|].
  destruct (document_embedding_single_attempt digest posix healthy vec dumps
              loads ascii_lower ascii_split Z Z.ltb cosine hiccup 30
              "benefits" [link_a; link_b] 20 10 East [] link_b
              after_first_turn)
    as (_ & _ & _ & Hfail).
  apply (Hfail (ResourceExhausted "429 quota exceeded") fresh [link_a] []
           [(1, url link_a)]);
    [reflexivity | by vm_compute | by vm_compute | by vm_compute
    | by vm_compute].
Defined.

(** With a regular file at ["cache"] no vector is stored, and a second
    ranking embeds the two candidates again: three calls, and three
    more. *)
Example blocked_cache_is_embedded_again :
  let first := snd (rank steady 30 "benefits" [link_a; link_b] 20 10 occupied) in
  let second := snd (rank steady 30 "benefits" [link_a; link_b] 20 10 first) in
  embed_calls first = 3%nat ∧ embed_calls second = 6%nat
  ∧ file_writes second = 0%nat.
Proof. repeat split; by vm_compute. Qed.

(** ** The rest of the sources, run *)

(** A resolution of references good enough for the pages below:
    absolute references stay, the others are appended to the base; and
    the reference that [urljoin] cannot parse. *)
Definition resolve (base ref : string) : result string :=
  if String.eqb ref "http://[" then
    Raise (OtherException "ValueError: Invalid IPv6 URL")
  else if String.prefix "http" ref || String.prefix "mailto:" ref then
    Return ref
  else Return (base +:+ ref).

Definition handbook : string := "https://handbook.gitlab.com/handbook/".
Definition direction : string := "https://about.gitlab.com/direction/".

(** A page with a relative link, the same link again, a mail address
    and an absolute link; and a page with a good link and one that
    cannot be parsed. *)
Definition handbook_anchors : list anchor :=
  [ {| anchor_href := "benefits/"; anchor_text := "Benefits";
       anchor_title := Some "Total rewards" |};
    {| anchor_href := "benefits/"; anchor_text := "More on benefits";
       anchor_title := None |};
    {| anchor_href := "mailto:people@gitlab.com"; anchor_text := "Write to us";
       anchor_title := None |};
    {| anchor_href := "https://about.gitlab.com/direction/";
       anchor_text := "Direction"; anchor_title := None |} ].

Definition broken_anchors : list anchor :=
  [ {| anchor_href := "benefits/"; anchor_text := "Benefits";
       anchor_title := None |};
    {| anchor_href := "http://["; anchor_text := "Broken";
       anchor_title := None |} ].

(** The web answers every request with the same document, and the
    parser finds the anchors above in it, or gives up. *)
Definition site (n : nat) (u : string) : result string := Return "<html>".
Definition parser (text : string) : result (list anchor) :=
  Return handbook_anchors.
Definition broken_parser (text : string) : result (list anchor) :=
  Return broken_anchors.
Definition no_parser (text : string) : result (list anchor) :=
  Raise (OtherException "FeatureNotFound").

Definition handbook_hrefs : list string :=
  [ "https://handbook.gitlab.com/handbook/benefits/";
    "https://handbook.gitlab.com/handbook/benefits/";
    "mailto:people@gitlab.com";
    "https://about.gitlab.com/direction/" ].

Definition direction_hrefs : list string :=
  [ "https://about.gitlab.com/direction/benefits/";
    "https://about.gitlab.com/direction/benefits/";
    "mailto:people@gitlab.com";
    "https://about.gitlab.com/direction/" ].

(** An index that only remembers how many chunks it holds, and a clock
    that counts the events so far. *)
Definition faiss (docs : list Document) : M nat := ret (length docs).
Definition clock (events : list event) : nat := length events.

Example handbook_links :
  fst (extract_link_contexts site parser resolve handbook 250 fresh)
  = Return
      [ {| url := "https://handbook.gitlab.com/handbook/benefits/";
           context := "Benefits Total rewards https://handbook.gitlab.com/handbook/benefits/" |};
        {| url := "https://about.gitlab.com/direction/";
           context := "Direction  https://about.gitlab.com/direction/" |} ].
Proof. by vm_compute. Qed.

(** A reference that [urljoin] cannot parse, or a parser that is
    missing, makes the extraction raise; with a limit of one link the
    loop stops before it reaches the broken reference. *)
Example broken_reference_raises :
  extract_link_contexts site broken_parser resolve handbook 250 fresh
  = (Raise (OtherException "ValueError: Invalid IPv6 URL"),
     emit (WebLoad handbook) fresh)
  ∧ fst (extract_link_contexts site no_parser resolve handbook 250 fresh)
    = Raise (OtherException "FeatureNotFound")
  ∧ fst (extract_link_contexts site broken_parser resolve handbook 1 fresh)
    = Return [ {| url := "https://handbook.gitlab.com/handbook/benefits/";
                  context := "Benefits  https://handbook.gitlab.com/handbook/benefits/" |} ].
Proof. repeat split; by vm_compute. Qed.

Lemma extract_link_contexts_distinct_witness :
  ∃ links,
    fst (extract_link_contexts site parser resolve handbook 250 fresh)
    = Return links
    ∧ NoDup (map url links).
Proof.
  destruct (extract_link_contexts_distinct site parser resolve handbook 250
              fresh "<html>" handbook_anchors handbook_hrefs
              eq_refl eq_refl ltac:(by repeat constructor))
    as (links & Heq & Hnd & _).
  exists links. split; [exact Heq | exact Hnd].
Defined.

Lemma extract_link_contexts_complete_witness :
  ∃ links,
    fst (extract_link_contexts site parser resolve handbook 250 fresh)
    = Return links
    ∧ "https://about.gitlab.com/direction/" ∈ map url links.
Proof.
  destruct (extract_link_contexts_complete site parser resolve handbook 250
              fresh "<html>" handbook_anchors handbook_hrefs
              eq_refl eq_refl ltac:(by repeat constructor) ltac:(simpl; lia))
    as (links & Heq & Hall).
  exists links. split; [exact Heq|].
  apply Hall; [|reflexivity].
  do 3 right. left.
Defined.

Lemma rank_output_distinct_witness :
  ∃ urls w',
    rank steady 30 "benefits" [link_a; link_b; link_c] 20 10 fresh
    = (Return urls, w')
    ∧ NoDup urls.
Proof.
  apply (rank_output_distinct digest posix healthy vec dumps loads
              ascii_lower ascii_split Z Z.ltb cosine
           steady 30 "benefits" [link_a; link_b; link_c] 20 10 fresh).
  apply (bool_decide_unpack _). vm_compute. exact I.
Defined.

Lemma rank_output_length_witness :
  length [url link_b; url link_a]
  = Nat.min (Z.to_nat 20)
      (length (select_links ascii_lower ascii_split 30 "benefits" [link_a; link_b] 10)).
Proof.
  apply (rank_output_length digest posix healthy vec dumps loads
              ascii_lower ascii_split Z Z.ltb cosine
           steady 30 "benefits" [link_a; link_b] 20 10 fresh
           [url link_b; url link_a]
           (snd (rank_body digest posix healthy vec dumps loads
              ascii_lower ascii_split Z Z.ltb cosine
                   steady 30 "benefits" [link_a; link_b] 20 10 fresh)));
    [lia | by vm_compute].
Defined.

(** The world a first ranking of [link_a] and [link_b] leaves. *)
Definition ranked_once : world :=
  snd (rank steady 30 "benefits" [link_a; link_b] 20 10 fresh).

Lemma rank_on_warm_cache_witness :
  snd (rank denied 30 "benefits" [link_a; link_b] 5 10 ranked_once)
  = emit (EmbedCall "benefits") ranked_once.
Proof.
  apply (rank_on_warm_cache digest posix healthy vec dumps loads
              ascii_lower ascii_split Z Z.ltb cosine
           denied 30 "benefits" [link_a; link_b] 5 10 ranked_once).
  assert (select_links ascii_lower ascii_split 30 "benefits" [link_a; link_b] 10 = [link_a; link_b])
    as -> by (by vm_compute).
  repeat constructor; exists East; by vm_compute.
Defined.

Lemma rank_again_costs_one_call_witness :
  snd (rank steady 30 "benefits" [link_a; link_b] 5 10 ranked_once)
  = emit (EmbedCall "benefits") ranked_once.
Proof.
  refine (proj2 (rank_again_costs_one_call digest posix healthy vec dumps
                   loads ascii_lower ascii_split Z Z.ltb cosine steady 30
                   dumps_loads dumps_plain (λ _ _, eq_refl) "benefits"
                   [link_a; link_b] 20 5 10 fresh
                   [url link_b; url link_a] ranked_once _ _));
    [reflexivity | by vm_compute].
Defined.

Definition pipeline (web : nat → string → result (list Document))
  : string → string → M (string * list string * nat) :=
  run_rag_pipeline_source digest posix healthy web chunks chain nat faiss nat
    clock Nat.sub.

Lemma pipeline_raises_without_chunks_witness :
  fst (pipeline web_down "What are the benefits?" (url link_a) fresh)
  = Raise not_initialized.
Proof.
  destruct (pipeline_raises_without_chunks digest posix healthy web_down chunks chain
              nat faiss nat clock Nat.sub "What are the benefits?"
              (url link_a) fresh eq_refl) as [Heq _].
  unfold pipeline. rewrite Heq. reflexivity.
Defined.

Lemma pipeline_returns_with_chunks_witness :
  ∃ elapsed w',
    pipeline web_up "What are the benefits?" (url link_a) fresh
    = (Return ("42", [source page], elapsed), w').
Proof.
  destruct (pipeline_returns_with_chunks digest posix healthy web_up chunks chain
              nat faiss nat clock Nat.sub "What are the benefits?"
              (url link_a) fresh
              (snd (load web_up (url link_a) fresh))
              (snd (load web_up (url link_a) fresh))
              [page] 1%nat eq_refl ltac:(discriminate) eq_refl)
    as (r & w3 & Hinvoke & Hrun & _).
  assert (Hr : r = reply).
  { vm_compute in Hinvoke. by injection Hinvoke as <- _. }
  subst r. eexists _, _. exact Hrun.
Defined.

(** The budget cut, on three candidates of which two mention the query
    word, and on a query that no candidate mentions. *)
Lemma budget_cut_keeps_best_witness :
  1 ≤ 2
  ∧ ∃ rest : list link,
      select_by_budget ascii_lower ascii_split 2 "benefits" [link_c; link_a; link_b] ++ rest
      ≡ₚ [link_c; link_a; link_b]
      ∧ ∀ a b,
          a ∈ select_by_budget ascii_lower ascii_split 2 "benefits"
                [link_c; link_a; link_b] →
          b ∈ rest →
          (lexical_score ascii_lower ascii_split "benefits" b
           ≤ lexical_score ascii_lower ascii_split "benefits" a)%nat.
Proof.
  split; [lia|].
  apply (budget_cut_keeps_best ascii_lower ascii_split 2 "benefits" [link_c; link_a; link_b]). lia.
Defined.

Lemma budget_cut_on_equal_scores_witness :
  Forall (λ l, lexical_score ascii_lower ascii_split "pricing" l = 0%nat) [link_a; link_b; link_c]
  ∧ select_by_budget ascii_lower ascii_split 3 "pricing" [link_a; link_b; link_c] = [link_a; link_b].
Proof.
  assert (Hall : Forall (λ l, lexical_score ascii_lower ascii_split "pricing" l = 0%nat)
                   [link_a; link_b; link_c])
    by (repeat constructor; by vm_compute).
  split; [exact Hall|].
  apply (budget_cut_on_equal_scores ascii_lower ascii_split 3 "pricing" [link_a; link_b; link_c] 0);
    [lia | exact Hall].
Defined.

(** Both main pages answer with the page above. *)
Lemma rank_main_pages_bounds_witness :
  ∃ urls w',
    rank_main_pages digest posix healthy vec dumps loads ascii_lower
      ascii_split Z Z.ltb cosine steady 30 site parser resolve
      "benefits" fresh
    = (Return urls, w')
    ∧ Z.of_nat (length urls) ≤ 20.
Proof.
  destruct (rank_main_pages_bounds digest posix healthy vec dumps loads
              ascii_lower ascii_split Z Z.ltb cosine steady 30 site parser
              resolve "benefits" fresh)
    as (links & urls & w' & _ & Hrank & Hlen & _).
  - exists handbook_anchors, handbook_hrefs.
    split; [reflexivity | by repeat constructor].
  - exists handbook_anchors, direction_hrefs.
    split; [reflexivity | by repeat constructor].
  - exists urls, w'. split; [exact Hrank | exact Hlen].
Defined.

(** The first page holds a reference that cannot be parsed: the
    ranking step raises, and the provider is never called. *)
Lemma rank_main_pages_raises_witness :
  rank_main_pages digest posix healthy vec dumps loads ascii_lower
    ascii_split Z Z.ltb cosine steady 30 site broken_parser resolve
    "benefits" fresh
  = (Raise (OtherException "ValueError: Invalid IPv6 URL"),
     emit (WebLoad handbook) fresh).
Proof.
  apply (rank_main_pages_raises digest posix healthy vec dumps loads
           ascii_lower ascii_split Z Z.ltb cosine steady 30 site
           broken_parser resolve "benefits" fresh).
  by vm_compute.
Defined.

End Scenario.
